(** * MoMEMta: the [BreitWignerGenerator] module

    A shallow embedding of [modules/BreitWignerGenerator.cc].

    The module maps a phase-space point [x], uniform on the unit interval,
    to an invariant mass squared [s] distributed according to a relativistic
    Breit-Wigner of mass [m] and width [Gamma], and reports the Jacobian
    [ds/dx] of the change of variable.

    Numbers.  The two configuration values are C++ [double]s that the
    constructor stores in [const float] members; this narrowing is modelled
    bit-exactly on IEEE-754 binary formats ([spec_float], round to nearest,
    ties to even).

    The program is [FP.work]: every arithmetic operation of [work] is the
    binary32 or binary64 operation that the C++ types select (each rounded
    to its own format), and the three libm functions it calls are a
    parameter.

    The change of variable that the header of the module documents is
    [work]: the same four steps in exact real arithmetic, on the real
    numbers that the stored floats denote, with [PI] for [M_PI]. *)

From Stdlib Require Import Reals Lra ZArith.
From Stdlib Require Import Floats.SpecFloat.
From Stdlib Require Import Ratan Machin.
From Stdlib Require Import Lia Bool.

Local Open Scope R_scope.

(** ** IEEE-754 binary formats *)

Module IEEE.

(** C++ [float] on the supported targets: binary32. *)
Definition prec32 : Z := 24.
Definition emax32 : Z := 128.

(** C++ [double]: binary64. *)
Definition prec64 : Z := 53.
Definition emax64 : Z := 1024.

Definition float32 := spec_float.
Definition float64 := spec_float.

Definition is_float32 (f : spec_float) : bool := valid_binary prec32 emax32 f.
Definition is_float64 (f : spec_float) : bool := valid_binary prec64 emax64 f.

(** The implicit conversion [double -> float] performed by the member
    initialisers [mass(parameters.get<double>("mass"))]: zeros, infinities
    and NaN keep their class, a finite value is rounded to the nearest
    binary32 number (ties to even), overflowing to an infinity. *)
Definition double_to_float (d : float64) : float32 :=
  match d with
  | S754_finite sx mx ex => binary_round prec32 emax32 sx mx ex
  | _ => d
  end.

(** The real number a finite binary float denotes.  Zeros denote [0];
    infinities and NaN denote no real and are sent to [0] as well. *)
Definition F2R (f : spec_float) : R :=
  match f with
  | S754_finite sx mx ex => IZR (cond_Zopp sx (Zpos mx)) * powerRZ 2 ex
  | _ => 0
  end.

End IEEE.

(** ** The module *)

(** The part of the shared memory pool the module touches: the input slot
    the [ps_point] input tag resolves to, owned by another module and only
    read here, and the two output slots produced under the names [s] and
    [jacobian]; here with real numbers for the [double]s. *)
Record Pool : Type := mkPool {
  ps_point : R;
  s : R;
  jacobian : R
}.

(** The private members set by the constructor. *)
Record BreitWignerGenerator : Type := mkBreitWignerGenerator {
  mass : IEEE.float32;
  width : IEEE.float32
}.

(** [BreitWignerGenerator(pool, parameters)], given the two values
    [parameters.get<double>("mass")] and [parameters.get<double>("width")]. *)
Definition new (mass_param width_param : IEEE.float64) : BreitWignerGenerator :=
  {| mass := IEEE.double_to_float mass_param;
     width := IEEE.double_to_float width_param |}.

(** ** The module in floating-point arithmetic *)

Module FP.

(** The operations of binary32 and binary64 arithmetic, rounding to
    nearest, ties to even. *)
Definition fmul : IEEE.float32 -> IEEE.float32 -> IEEE.float32 :=
  SFmul IEEE.prec32 IEEE.emax32.
Definition fdiv : IEEE.float32 -> IEEE.float32 -> IEEE.float32 :=
  SFdiv IEEE.prec32 IEEE.emax32.
Definition fneg : IEEE.float32 -> IEEE.float32 := SFopp.

Definition dadd : IEEE.float64 -> IEEE.float64 -> IEEE.float64 :=
  SFadd IEEE.prec64 IEEE.emax64.
Definition dmul : IEEE.float64 -> IEEE.float64 -> IEEE.float64 :=
  SFmul IEEE.prec64 IEEE.emax64.
Definition ddiv : IEEE.float64 -> IEEE.float64 -> IEEE.float64 :=
  SFdiv IEEE.prec64 IEEE.emax64.

(** The implicit promotion [float -> double] of a float operand that meets
    a double one; it is exact. *)
Definition float_to_double (f : IEEE.float32) : IEEE.float64 :=
  match f with
  | S754_finite sx mx ex => binary_round IEEE.prec64 IEEE.emax64 sx mx ex
  | _ => f
  end.

(** [M_PI], the [double] [0x400921FB54442D18], and the literal [2.]. *)
Definition M_PI : IEEE.float64 := S754_finite false 7074237752028440 (-51).
Definition two : IEEE.float64 := S754_finite false 4503599627370496 (-51).

(** The three functions of the C library that [work] calls: the [float]
    overload of [std::atan] and the [double] overloads of [std::tan] and
    [std::cos].  They are not part of the repository and are taken as a
    parameter. *)
Record Libm : Type := mkLibm {
  atanf : IEEE.float32 -> IEEE.float32;
  tan : IEEE.float64 -> IEEE.float64;
  cos : IEEE.float64 -> IEEE.float64
}.

(** The slots of the pool the module touches, each a [double]. *)
Record Pool : Type := mkPool {
  ps_point : IEEE.float64;
  s : IEEE.float64;
  jacobian : IEEE.float64
}.

(** [BreitWignerGenerator::work].  [mass] and [width] are [float]s, so
    [mass / width], [std::atan (mass / width)], its negation, [mass * width]
    and [mass * mass] are binary32 operations, each rounded to binary32;
    their results are promoted where they meet a [double], and the rest,
    [M_PI / 2.] included, is binary64.  [range * mass * width] associates
    to the left, so both members are promoted there. *)
Definition work (lm : Libm) (self : BreitWignerGenerator) (pool : Pool) : Pool :=
  let psPoint := ps_point pool in
  let range :=
    dadd (ddiv M_PI two)
         (float_to_double (atanf lm (fdiv (mass self) (width self)))) in
  let y :=
    dadd (float_to_double (fneg (atanf lm (fdiv (mass self) (width self)))))
         (dmul range psPoint) in
  {| ps_point := ps_point pool;
     s := dadd (dmul (float_to_double (fmul (mass self) (width self)))
                     (tan lm y))
               (float_to_double (fmul (mass self) (mass self)));
     jacobian :=
       ddiv (dmul (dmul range (float_to_double (mass self)))
                  (float_to_double (width self)))
            (dmul (cos lm y) (cos lm y)) |}.

(** Neither an infinity nor a NaN. *)
Definition is_finite (f : spec_float) : bool :=
  match f with
  | S754_zero _ | S754_finite _ _ _ => true
  | S754_infinity _ | S754_nan => false
  end.

End FP.

(** ** The documented change of variable, in exact arithmetic *)

(** The four steps of [BreitWignerGenerator::work] in exact real
    arithmetic, on a pool of real numbers.  The program itself is
    [FP.work]. *)
Definition work (self : BreitWignerGenerator) (pool : Pool) : Pool :=
  let mass := IEEE.F2R (mass self) in
  let width := IEEE.F2R (width self) in
  let psPoint := ps_point pool in
  let range := PI / 2 + atan (mass / width) in
  let y := - atan (mass / width) + range * psPoint in
  {| ps_point := ps_point pool;
     s := mass * width * tan y + (mass * mass);
     jacobian := range * mass * width / (cos y * cos y) |}.

(** [BreitWignerGenerator::dimensions]. *)
Definition dimensions (self : BreitWignerGenerator) : N := 1%N.

(** The locals [range] and [y] of [work], named for use in statements. *)
Definition work_range (self : BreitWignerGenerator) : R :=
  PI / 2 + atan (IEEE.F2R (mass self) / IEEE.F2R (width self)).

Definition work_y (self : BreitWignerGenerator) (pool : Pool) : R :=
  - atan (IEEE.F2R (mass self) / IEEE.F2R (width self))
  + work_range self * ps_point pool.

(** The host's side of one evaluation: the external sampler places the
    sample in the input slot before [work] runs. *)
Definition with_sample (x : R) (pool : Pool) : Pool :=
  {| ps_point := x; s := s pool; jacobian := jacobian pool |}.

(** ** The specification's reference definition *)


(** ** Concrete configurations *)

(** The [double] nearest to one tenth, [0x3FB999999999999A]. *)
Definition one_tenth : IEEE.float64 :=
  S754_finite false 7205759403792794 (-56).

(** The [double] [1.0]. *)
Definition one : IEEE.float64 :=
  S754_finite false 4503599627370496 (-52).

(** The unit Breit-Wigner, configured with mass = width = 1.0, and a pool
    whose input slot holds the sample [x]. *)
Definition unit_generator : BreitWignerGenerator := new one one.

Definition pool_at (x : R) : Pool := {| ps_point := x; s := 0; jacobian := 0 |}.

(** The [double]s [2^-200] and [2^200]. *)
Definition two_pow_minus_200 : IEEE.float64 :=
  S754_finite false 4503599627370496 (-252).

Definition two_pow_200 : IEEE.float64 :=
  S754_finite false 4503599627370496 148.

(** The [double]s [2^70], [2^-100], [1/4] and [2^-149], and three
    configurations of the module: a heavy one (mass 2^70, width 1), a faint
    one (mass = width = 2^-100) and a narrow one (mass 1/4, width 2^-149). *)
Definition two_pow_70 : IEEE.float64 := S754_finite false 4503599627370496 18.
Definition two_pow_minus_100 : IEEE.float64 :=
  S754_finite false 4503599627370496 (-152).
Definition quarter : IEEE.float64 := S754_finite false 4503599627370496 (-54).
Definition two_pow_minus_149 : IEEE.float64 :=
  S754_finite false 4503599627370496 (-201).
(** A stand-in for libm, to instantiate statements that hold for every
    libm. *)
Definition stand_in_libm : FP.Libm :=
  FP.mkLibm (fun f => f) (fun d => d) (fun d => d).

Definition heavy_generator : BreitWignerGenerator := new two_pow_70 one.
Definition faint_generator : BreitWignerGenerator :=
  new two_pow_minus_100 two_pow_minus_100.
Definition narrow_generator : BreitWignerGenerator :=
  new quarter two_pow_minus_149.

(** The state of a right shift after [k] steps from the mantissa [m0]:
    the kept mantissa, the round bit and the sticky bit account for every
    bit of [m0]. *)
Definition shr_inv (m0 : Z) (k : nat) (mrs : shr_record) : Prop :=
  exists t : Z,
    (2 * m0 = shr_m mrs * (2 * 2 ^ Z.of_nat k)
              + Z.b2z (shr_r mrs) * 2 ^ Z.of_nat k + t)%Z /\
    (0 <= t < 2 ^ Z.of_nat k)%Z /\
    (shr_s mrs = true <-> (0 < t)%Z) /\
    (0 <= shr_m mrs)%Z.

(** ** Unfolding equations *)

Lemma work_ps_point self pool : ps_point (work self pool) = ps_point pool.
Proof. reflexivity. Qed.

Lemma work_s self pool :
  s (work self pool) =
  IEEE.F2R (mass self) * IEEE.F2R (width self) * tan (work_y self pool)
  + IEEE.F2R (mass self) * IEEE.F2R (mass self).
Proof. reflexivity. Qed.

Lemma work_jacobian self pool :
  jacobian (work self pool) =
  work_range self * IEEE.F2R (mass self) * IEEE.F2R (width self)
  / (cos (work_y self pool) * cos (work_y self pool)).
Proof. reflexivity. Qed.

(** C2: [dimensions] returns 1 for every instance, whatever the configured
    mass and width. *)
Theorem dimensions_is_one :
  (forall self : BreitWignerGenerator, dimensions self = 1%N) /\
  (forall mass_param width_param : IEEE.float64,
      dimensions (new mass_param width_param) = 1%N).
Proof. split; reflexivity. Qed.

(** ** Real-analysis facts about the change of variable *)

Section Angle.

Variable a : R.

Lemma range_pos : 0 < PI / 2 + atan a.
Proof. pose proof (atan_bound a). lra. Qed.

(** For a sample in [[0,1)] the angle stays strictly between the poles of
    the tangent. *)
Lemma angle_between_poles x :
  0 <= x < 1 ->
  - PI / 2 < - atan a + (PI / 2 + atan a) * x < PI / 2.
Proof.
  intros [Hx0 Hx1]. pose proof (atan_bound a) as [Hlo Hhi].
  pose proof range_pos as Hr.
  split; nra.
Qed.

End Angle.

Lemma cos_pos_between_poles y : - PI / 2 < y < PI / 2 -> 0 < cos y.
Proof. intros [Hlo Hhi]. apply cos_gt_0; lra. Qed.

Lemma Rabs_tan_le y : 0 < cos y -> Rabs (tan y) <= / cos y.
Proof.
  intros Hc. unfold tan, Rdiv.
  rewrite Rabs_mult, (Rabs_pos_eq (/ cos y)).
  - rewrite <- (Rmult_1_l (/ cos y)) at 2.
    apply Rmult_le_compat_r.
    + left. now apply Rinv_0_lt_compat.
    + apply Rabs_le. apply SIN_bound.
  - left. now apply Rinv_0_lt_compat.
Qed.

(** The derivative of the tangent away from its poles, in the form the
    Jacobian uses. *)
Lemma derivable_pt_lim_tan y :
  cos y <> 0 -> derivable_pt_lim tan y (/ (cos y * cos y)).
Proof.
  intros Hc.
  replace (/ (cos y * cos y)) with ((cos y * cos y - - sin y * sin y) / Rsqr (cos y)).
  - apply (derivable_pt_lim_div sin cos y (cos y) (- sin y)).
    + apply derivable_pt_lim_sin.
    + apply derivable_pt_lim_cos.
    + exact Hc.
  - pose proof (sin2_cos2 y) as H. unfold Rsqr in *.
    replace (cos y * cos y - - sin y * sin y) with 1 by lra.
    unfold Rdiv. ring.
Qed.

Lemma work_range_pos self : 0 < work_range self.
Proof. apply range_pos. Qed.

Lemma work_y_between_poles self pool :
  0 <= ps_point pool < 1 -> - PI / 2 < work_y self pool < PI / 2.
Proof. intros Hx. apply angle_between_poles, Hx. Qed.

Lemma work_y_increasing self p1 p2 :
  ps_point p1 < ps_point p2 -> work_y self p1 < work_y self p2.
Proof.
  intros Hlt. unfold work_y. pose proof (work_range_pos self). nra.
Qed.

(** In exact arithmetic, for mass > 0, width > 0 and a sample x with
    0 <= x < 1, the Jacobian is strictly positive, the angle [y] lies
    strictly between -PI/2 and PI/2, so [cos y > 0] and the tangent is away
    from its poles, and |s| is bounded by mass^2 + mass*width/cos y. *)
Theorem jacobian_positive_s_finite :
  forall (self : BreitWignerGenerator) (pool : Pool),
    0 < IEEE.F2R (mass self) ->
    0 < IEEE.F2R (width self) ->
    0 <= ps_point pool < 1 ->
    0 < jacobian (work self pool) /\
    ((- PI / 2 < work_y self pool < PI / 2) /\
     0 < cos (work_y self pool) /\
     Rabs (s (work self pool)) <=
       IEEE.F2R (mass self) * IEEE.F2R (mass self)
       + IEEE.F2R (mass self) * IEEE.F2R (width self) / cos (work_y self pool)).
Proof.
  intros self pool Hm Hw Hx.
  pose proof (work_y_between_poles self pool Hx) as Hy.
  pose proof (cos_pos_between_poles _ Hy) as Hc.
  pose proof (work_range_pos self) as Hr.
  assert (Hmw : 0 < IEEE.F2R (mass self) * IEEE.F2R (width self))
    by now apply Rmult_lt_0_compat.
  split; [| split; [exact Hy | split; [exact Hc |]]].
  - rewrite work_jacobian. apply Rdiv_lt_0_compat.
    + rewrite Rmult_assoc. now apply Rmult_lt_0_compat.
    + now apply Rmult_lt_0_compat.
  - rewrite work_s.
    eapply Rle_trans; [apply Rabs_triang |].
    rewrite Rabs_mult, (Rabs_pos_eq (_ * _)) by now left.
    rewrite (Rabs_pos_eq (IEEE.F2R (mass self) * IEEE.F2R (mass self)))
      by (left; now apply Rmult_lt_0_compat).
    pose proof (Rabs_tan_le _ Hc) as Ht.
    unfold Rdiv. rewrite Rplus_comm. apply Rplus_le_compat_l.
    apply Rmult_le_compat_l; [now left | exact Ht].
Qed.

(** In exact arithmetic, for mass > 0 and width > 0, [s] is strictly
    increasing in the sample over [[0,1)]. *)
Theorem s_strictly_increasing :
  forall (self : BreitWignerGenerator) (p1 p2 : Pool),
    0 < IEEE.F2R (mass self) ->
    0 < IEEE.F2R (width self) ->
    0 <= ps_point p1 ->
    ps_point p1 < ps_point p2 ->
    ps_point p2 < 1 ->
    s (work self p1) < s (work self p2).
Proof.
  intros self p1 p2 Hm Hw H0 Hlt H1.
  assert (Hy1 : - PI / 2 < work_y self p1 < PI / 2)
    by (apply work_y_between_poles; lra).
  assert (Hy2 : - PI / 2 < work_y self p2 < PI / 2)
    by (apply work_y_between_poles; lra).
  pose proof (work_y_increasing self p1 p2 Hlt) as Hy.
  assert (Ht : tan (work_y self p1) < tan (work_y self p2))
    by (apply tan_increasing; lra).
  rewrite !work_s. apply Rplus_lt_compat_r.
  apply Rmult_lt_compat_l; [now apply Rmult_lt_0_compat | exact Ht].
Qed.

(** In exact arithmetic, for mass > 0 and width > 0, the sample x = 0 is
    mapped to s = 0: the angle is y = -atan(mass/width), and
    s = mass^2 - mass*width*(mass/width) = 0. *)
Theorem s_at_zero :
  forall (self : BreitWignerGenerator) (pool : Pool),
    0 < IEEE.F2R (mass self) ->
    0 < IEEE.F2R (width self) ->
    ps_point pool = 0 ->
    work_y self pool = - atan (IEEE.F2R (mass self) / IEEE.F2R (width self)) /\
    s (work self pool) = 0.
Proof.
  intros self pool Hm Hw Hx.
  assert (Hy : work_y self pool
               = - atan (IEEE.F2R (mass self) / IEEE.F2R (width self)))
    by (unfold work_y; rewrite Hx; ring).
  split; [exact Hy |].
  rewrite work_s, Hy, tan_neg, tan_atan. field. lra.
Qed.

(** ** The Jacobian is the derivative of [s] *)

(** The map [t |-> c * tan (a + r * t) + k] has derivative
    [r * c / cos^2 (a + r * t)] wherever the cosine does not vanish. *)
Lemma derivable_pt_lim_affine_tan c a r k x :
  cos (a + r * x) <> 0 ->
  derivable_pt_lim (fun t => c * tan (a + r * t) + k) x
    (r * c / (cos (a + r * x) * cos (a + r * x))).
Proof.
  intros Hc.
  set (inner := (fct_cte a + mult_real_fct r id)%F).
  assert (Hinner : derivable_pt_lim inner x (0 + r * 1)).
  { apply derivable_pt_lim_plus.
    - apply derivable_pt_lim_const.
    - apply derivable_pt_lim_scal, derivable_pt_lim_id. }
  assert (Hx : inner x = a + r * x) by reflexivity.
  assert (Htan : derivable_pt_lim (comp tan inner) x
                   (/ (cos (a + r * x) * cos (a + r * x)) * (0 + r * 1))).
  { apply derivable_pt_lim_comp; [exact Hinner |].
    rewrite Hx. now apply derivable_pt_lim_tan. }
  apply (derivable_pt_lim_ext
           (mult_real_fct c (comp tan inner) + fct_cte k)%F).
  - intros z. reflexivity.
  - replace (r * c / (cos (a + r * x) * cos (a + r * x)))
      with (c * (/ (cos (a + r * x) * cos (a + r * x)) * (0 + r * 1)) + 0)
      by (unfold Rdiv; ring).
    apply derivable_pt_lim_plus.
    + now apply derivable_pt_lim_scal.
    + apply derivable_pt_lim_const.
Qed.

(** In exact arithmetic, for mass > 0, width > 0 and a sample x with
    0 <= x < 1, the Jacobian is the derivative, at x, of [s] seen as a
    function of the sample. *)
Theorem jacobian_is_ds_dx :
  forall (self : BreitWignerGenerator) (pool : Pool) (x : R),
    0 < IEEE.F2R (mass self) ->
    0 < IEEE.F2R (width self) ->
    0 <= x < 1 ->
    derivable_pt_lim (fun t => s (work self (with_sample t pool))) x
      (jacobian (work self (with_sample x pool))).
Proof.
  intros self pool x Hm Hw Hx.
  assert (Hy : - PI / 2 < work_y self (with_sample x pool) < PI / 2)
    by now apply work_y_between_poles.
  pose proof (cos_pos_between_poles _ Hy) as Hc.
  rewrite work_jacobian.
  unfold work_y in *; cbn [ps_point with_sample] in *.
  apply (derivable_pt_lim_ext
           (fun t => IEEE.F2R (mass self) * IEEE.F2R (width self)
                     * tan (- atan (IEEE.F2R (mass self) / IEEE.F2R (width self))
                            + work_range self * t)
                     + IEEE.F2R (mass self) * IEEE.F2R (mass self))).
  - intros z. reflexivity.
  - rewrite (Rmult_assoc (work_range self)).
    apply derivable_pt_lim_affine_tan. lra.
Qed.

(** ** Independence across calls *)

(** C8: [work] is deterministic and stateless: with the same sample in the
    input slot the two outputs do not depend on what the output slots held
    before, a second call after a first one leaves the pool as the first one
    did, and [work] never changes the input slot. *)
Theorem work_deterministic_stateless :
  forall (self : BreitWignerGenerator) (pool pool' : Pool) (x : R),
    work self (with_sample x pool) = work self (with_sample x pool') /\
    work self (with_sample x (work self (with_sample x pool)))
      = work self (with_sample x pool) /\
    work self (work self pool) = work self pool /\
    ps_point (work self pool) = ps_point pool.
Proof.
  intros self pool pool' x. repeat split.
Qed.

(** ** Narrowing of the configured parameters *)


Lemma double_to_float_one :
  IEEE.double_to_float one = S754_finite false 8388608 (-23).
Proof. vm_compute. reflexivity. Qed.

(** The conversion at the edges of binary32: the largest [double]
    overflows to infinity, a tie is broken towards the even mantissa, and
    half the smallest subnormal underflows to a signed zero. *)
Example double_to_float_overflow :
  IEEE.double_to_float (S754_finite false 9007199254740991 971)
  = S754_infinity false.
Proof. vm_compute. reflexivity. Qed.

Example double_to_float_tie_even :
  IEEE.double_to_float (S754_finite false (4503599627370496 + 268435456) (-52))
  = S754_finite false 8388608 (-23) /\
  IEEE.double_to_float
    (S754_finite false (4503599627370496 + 3 * 268435456) (-52))
  = S754_finite false 8388610 (-23).
Proof. split; vm_compute; reflexivity. Qed.

Example double_to_float_underflow :
  IEEE.double_to_float (S754_finite true 4503599627370496 (-202))
  = S754_zero true.
Proof. vm_compute. reflexivity. Qed.

Lemma powerRZ_2_neg (n : positive) :
  powerRZ 2 (Zneg n) = / IZR (Z.pow_pos 2 n).
Proof.
  unfold powerRZ. f_equal.
  rewrite pow_IZR, positive_nat_Z. reflexivity.
Qed.

Lemma F2R_new_one : IEEE.F2R (IEEE.double_to_float one) = 1.
Proof.
  rewrite double_to_float_one. unfold IEEE.F2R, cond_Zopp.
  rewrite powerRZ_2_neg.
  replace (Z.pow_pos 2 23) with 8388608%Z by (vm_compute; reflexivity).
  field.
Qed.

Lemma F2R_one_tenth : IEEE.F2R one_tenth = 7205759403792794 / 72057594037927936.
Proof.
  unfold one_tenth, IEEE.F2R, cond_Zopp. rewrite powerRZ_2_neg.
  replace (Z.pow_pos 2 56) with 72057594037927936%Z by (vm_compute; reflexivity).
  reflexivity.
Qed.


(** ** The midpoint of the unit Breit-Wigner *)

Lemma PI_enclosure : 31415926 / 10000000 < PI < 31415927 / 10000000.
Proof.
  pose proof (PI_2_3_7_ineq 4) as [Hlo Hhi].
  unfold sum_f_R0, tg_alt, PI_2_3_7_tg, Ratan_seq in Hlo, Hhi.
  cbn [Nat.mul Nat.add pow INR] in Hlo, Hhi.
  split; lra.
Qed.

(** [tan (PI/8)] is the positive root of [t^2 + 2 t - 1]. *)
Lemma tan_PI8_root :
  0 < tan (PI / 8) /\ tan (PI / 8) * tan (PI / 8) + 2 * tan (PI / 8) - 1 = 0.
Proof.
  pose proof PI_RGT_0 as Hpi.
  assert (Hc : 0 < cos (PI / 8)) by (apply cos_gt_0; lra).
  assert (Hs : 0 < sin (PI / 8)) by (apply sin_gt_0; lra).
  assert (H4 : sin (2 * (PI / 8)) = cos (2 * (PI / 8))).
  { replace (2 * (PI / 8)) with (PI / 4) by field.
    now rewrite sin_PI4, cos_PI4. }
  rewrite sin_2a, cos_2a in H4.
  unfold tan. split.
  - now apply Rdiv_lt_0_compat.
  - apply Rmult_eq_reg_l with (cos (PI / 8) * cos (PI / 8)).
    + field_simplify; lra.
    + apply Rgt_not_eq. now apply Rmult_lt_0_compat.
Qed.

Lemma tan_PI8_enclosure :
  41421356 / 100000000 < tan (PI / 8) < 41421357 / 100000000.
Proof.
  destruct tan_PI8_root as [Hpos Hroot]. split; nra.
Qed.

Lemma inv_cos2_PI8 :
  / (cos (PI / 8) * cos (PI / 8)) = 1 + tan (PI / 8) * tan (PI / 8).
Proof.
  pose proof PI_RGT_0 as Hpi.
  assert (Hc : 0 < cos (PI / 8)) by (apply cos_gt_0; lra).
  pose proof (sin2_cos2 (PI / 8)) as H. unfold Rsqr in H.
  unfold tan. field_simplify; [| lra | lra].
  rewrite <- H. field. lra.
Qed.

(** With equal mass and width the sample 1/2 is sent to the angle PI/8. *)
Lemma equal_mass_width_y self pool :
  IEEE.F2R (width self) = IEEE.F2R (mass self) ->
  IEEE.F2R (mass self) <> 0 ->
  ps_point pool = 1 / 2 ->
  work_y self pool = PI / 8.
Proof.
  intros Hw Hm Hx. unfold work_y, work_range. rewrite Hw, Hx.
  replace (IEEE.F2R (mass self) / IEEE.F2R (mass self)) with 1
    by (field; exact Hm).
  rewrite atan_1. field.
Qed.

Section Midpoint.

Variable pool : Pool.

Lemma midpoint_y : work_y (new one one) (with_sample (1 / 2) pool) = PI / 8.
Proof.
  apply equal_mass_width_y; cbn [new mass width]; rewrite ?F2R_new_one;
    [reflexivity | lra | reflexivity].
Qed.

Lemma midpoint_s :
  s (work (new one one) (with_sample (1 / 2) pool)) = tan (PI / 8) + 1.
Proof.
  rewrite work_s, midpoint_y.
  cbn [new mass width]. rewrite F2R_new_one. ring.
Qed.

Lemma midpoint_jacobian :
  jacobian (work (new one one) (with_sample (1 / 2) pool))
  = 3 * PI / 4 / (cos (PI / 8)) ^ 2.
Proof.
  rewrite work_jacobian, midpoint_y. unfold work_range.
  cbn [new mass width]. rewrite F2R_new_one.
  replace (1 / 1) with 1 by field. rewrite atan_1.
  replace (cos (PI / 8) ^ 2) with (cos (PI / 8) * cos (PI / 8)) by ring.
  unfold Rdiv. f_equal. field.
Qed.

Lemma midpoint_jacobian_enclosure :
  276045 / 100000
  < jacobian (work (new one one) (with_sample (1 / 2) pool))
  < 276046 / 100000.
Proof.
  rewrite midpoint_jacobian.
  replace (3 * PI / 4 / cos (PI / 8) ^ 2)
    with (3 * PI / 4 * / (cos (PI / 8) * cos (PI / 8)))
    by (replace (cos (PI / 8) * cos (PI / 8)) with (cos (PI / 8) ^ 2) by ring;
        reflexivity).
  rewrite inv_cos2_PI8.
  pose proof PI_enclosure as [Hlo Hhi].
  pose proof tan_PI8_enclosure as [Htlo Hthi].
  split; nra.
Qed.

End Midpoint.

(** ** The stored parameters are the narrowed ones *)


(** C7 (amended): with mass = 1, width = 1 and x = 0.5, [work] writes
    s = tan(PI/8) + 1, which is 1.41421 to within 1e-5, and
    jacobian = (3 PI/4) / cos(PI/8)^2, which is 2.76045 to within 1e-5. *)
Theorem midpoint_values :
  forall pool : Pool,
    s (work (new one one) (with_sample (1 / 2) pool)) = tan (PI / 8) + 1 /\
    jacobian (work (new one one) (with_sample (1 / 2) pool))
      = 3 * PI / 4 / (cos (PI / 8)) ^ 2 /\
    Rabs (s (work (new one one) (with_sample (1 / 2) pool)) - 141421 / 100000)
      <= 1 / 100000 /\
    Rabs (jacobian (work (new one one) (with_sample (1 / 2) pool))
          - 276045 / 100000)
      <= 1 / 100000.
Proof.
  intros pool.
  pose proof (midpoint_s pool) as Hs.
  pose proof (midpoint_jacobian pool) as Hj.
  pose proof (midpoint_jacobian_enclosure pool) as [Hjlo Hjhi].
  pose proof tan_PI8_enclosure as [Htlo Hthi].
  repeat split; try assumption.
  - rewrite Hs. apply Rabs_le. lra.
  - apply Rabs_le. lra.
Qed.

(** C7, as stated, fails: at mass = 1, width = 1, x = 0.5 the outputs are
    not both within 1e-5 of 1.41421 and 2.7603, the Jacobian being larger
    than 2.76045. *)
Lemma midpoint_jacobian_not_2_7603 :
  ~ (Rabs (s (work unit_generator (pool_at (1 / 2))) - 141421 / 100000)
       <= 1 / 100000 /\
     Rabs (jacobian (work unit_generator (pool_at (1 / 2))) - 27603 / 10000)
       <= 1 / 100000).
Proof.
  intros [_ Hj].
  pose proof (midpoint_jacobian_enclosure (pool_at (1 / 2))) as [Hlo _].
  change (work (new one one) (with_sample (1 / 2) (pool_at (1 / 2))))
    with (work unit_generator (pool_at (1 / 2))) in Hlo.
  pose proof (Rle_abs (jacobian (work unit_generator (pool_at (1 / 2)))
                       - 27603 / 10000)) as Habs.
  lra.
Qed.

(** ** The unit Breit-Wigner *)




(** * Further properties of the change of variable *)

(** ** Shared facts *)


(** ** A lower bound on the Jacobian *)


(** * Further properties of the constructor's narrowing *)

(** ** Shifting mantissas *)

Lemma iter_pos_iter {A : Type} (f : A -> A) (p : positive) (x : A) :
  iter_pos f p x = Pos.iter f x p.
Proof.
  revert x. induction p as [p IH | p IH |]; intros x; cbn [iter_pos Pos.iter].
  - rewrite !IH, !Pos.iter_swap. reflexivity.
  - rewrite !IH. reflexivity.
  - reflexivity.
Qed.

Lemma iter_pos_nat {A : Type} (f : A -> A) (p : positive) (x : A) :
  iter_pos f p x = Nat.iter (Pos.to_nat p) f x.
Proof. rewrite iter_pos_iter. apply Pos2Nat.inj_iter. Qed.

(** A shift of a non-negative amount, by unary iteration. *)
Lemma shr_nat mrs e (n : nat) :
  shr mrs e (Z.of_nat n) = (Nat.iter n shr_1 mrs, (e + Z.of_nat n)%Z).
Proof.
  destruct n as [| n].
  - cbn. f_equal. lia.
  - cbn [Z.of_nat shr]. rewrite iter_pos_nat, SuccNat2Pos.id_succ. reflexivity.
Qed.

(** Shifting right undoes shifting left, exactly. *)
Lemma shr_1_undoes_xO (n : nat) (m : positive) :
  Nat.iter n shr_1 (Build_shr_record (Zpos (Nat.iter n xO m)) false false)
  = Build_shr_record (Zpos m) false false.
Proof.
  induction n as [| n IH]; [reflexivity |].
  rewrite Nat.iter_succ_r. cbn [Nat.iter nat_rect shr_1 orb]. exact IH.
Qed.

Lemma digits2_pos_xO (n : nat) (m : positive) :
  Zpos (digits2_pos (Nat.iter n xO m)) = (Zpos (digits2_pos m) + Z.of_nat n)%Z.
Proof.
  induction n as [| n IH]; [cbn; lia |].
  cbn [Nat.iter nat_rect digits2_pos]. rewrite Pos2Z.inj_succ.
  change (nat_rect (fun _ => positive) m (fun _ => xO) n) with (Nat.iter n xO m).
  rewrite IH. lia.
Qed.

(** Once every bit has been shifted out, and one more, only the sticky bit
    is left. *)
Lemma shr_1_exhausts (p : positive) :
  forall (n : nat) (r s : bool),
    (Pos.to_nat (digits2_pos p) < n)%nat ->
    Nat.iter n shr_1 (Build_shr_record (Zpos p) r s)
    = Build_shr_record 0 false true.
Proof.
  assert (Hfix : forall n, Nat.iter n shr_1 (Build_shr_record 0 false true)
                           = Build_shr_record 0 false true).
  { induction n as [| n IH]; [reflexivity |].
    rewrite Nat.iter_succ_r. exact IH. }
  induction p as [p IH | p IH |]; intros n r s Hn.
  - destruct n as [| n]; [lia |]. rewrite Nat.iter_succ_r. cbn [shr_1].
    apply IH. cbn [digits2_pos] in Hn. lia.
  - destruct n as [| n]; [lia |]. rewrite Nat.iter_succ_r. cbn [shr_1].
    apply IH. cbn [digits2_pos] in Hn. lia.
  - destruct n as [| [| n]]; [cbn in Hn; lia | cbn in Hn; lia |].
    rewrite !Nat.iter_succ_r. cbn [shr_1 orb]. apply Hfix.
Qed.

(** ** Values that survive the narrowing, and values that do not *)

Lemma binary_round_shifted (sx : bool) (m : positive) (e : Z) (n : nat) :
  bounded IEEE.prec32 IEEE.emax32 m e = true ->
  binary_round IEEE.prec32 IEEE.emax32 sx (Nat.iter n xO m) (e - Z.of_nat n)
  = S754_finite sx m e.
Proof.
  intros Hb. apply andb_prop in Hb as [Hcan Hle].
  unfold canonical_mantissa in Hcan. apply Z.eqb_eq in Hcan.
  assert (Hd : (Zpos (digits2_pos (Nat.iter n xO m)) + (e - Z.of_nat n)
                = Zpos (digits2_pos m) + e)%Z)
    by (rewrite digits2_pos_xO; lia).
  unfold binary_round. rewrite Hd, Hcan.
  assert (Hal : shl_align (Nat.iter n xO m) (e - Z.of_nat n) e
                = (Nat.iter n xO m, (e - Z.of_nat n)%Z)).
  { unfold shl_align. replace (e - (e - Z.of_nat n))%Z with (Z.of_nat n) by lia.
    destruct (Z.of_nat n) eqn:En; try reflexivity.
    pose proof (Nat2Z.is_nonneg n). lia. }
  rewrite Hal. unfold binary_round_aux.
  assert (Hshr : shr_fexp IEEE.prec32 IEEE.emax32
                   (Zpos (Nat.iter n xO m)) (e - Z.of_nat n) loc_Exact
                 = (Build_shr_record (Zpos m) false false, e)).
  { unfold shr_fexp. cbn [Zdigits2 shr_record_of_loc]. rewrite Hd, Hcan.
    replace (e - (e - Z.of_nat n))%Z with (Z.of_nat n) by lia.
    rewrite shr_nat, shr_1_undoes_xO. f_equal. lia. }
  rewrite Hshr. cbn [shr_m loc_of_shr_record round_nearest_even].
  assert (Hshr2 : shr_fexp IEEE.prec32 IEEE.emax32 (Zpos m) e loc_Exact
                  = (Build_shr_record (Zpos m) false false, e)).
  { unfold shr_fexp. cbn [Zdigits2 shr_record_of_loc].
    rewrite Hcan, Z.sub_diag. reflexivity. }
  rewrite Hshr2. cbn [shr_m]. rewrite Hle. reflexivity.
Qed.

Lemma binary_round_underflow (sx : bool) (m : positive) (e : Z) :
  (Zpos (digits2_pos m) + e <= -150)%Z ->
  binary_round IEEE.prec32 IEEE.emax32 sx m e = S754_zero sx.
Proof.
  intros Hsmall.
  pose proof (Pos2Z.is_pos (digits2_pos m)) as Hdpos.
  assert (Hfexp : fexp IEEE.prec32 IEEE.emax32 (Zpos (digits2_pos m) + e)
                  = (-149)%Z).
  { unfold fexp, emin, IEEE.prec32, IEEE.emax32. lia. }
  unfold binary_round. rewrite Hfexp.
  assert (Hal : shl_align m e (-149) = (m, e)).
  { unfold shl_align. destruct (-149 - e)%Z eqn:En; try reflexivity. lia. }
  rewrite Hal. unfold binary_round_aux.
  assert (Hshr : shr_fexp IEEE.prec32 IEEE.emax32 (Zpos m) e loc_Exact
                 = (Build_shr_record 0 false true, (-149)%Z)).
  { unfold shr_fexp. cbn [Zdigits2 shr_record_of_loc]. rewrite Hfexp.
    replace (-149 - e)%Z with (Z.of_nat (Z.to_nat (-149 - e))) by lia.
    rewrite shr_nat, shr_1_exhausts by lia. f_equal. lia. }
  rewrite Hshr. cbn [shr_m loc_of_shr_record round_nearest_even].
  reflexivity.
Qed.

Lemma F2R_sign_true m e : IEEE.F2R (S754_finite true m e) < 0.
Proof.
  unfold IEEE.F2R, cond_Zopp.
  pose proof (powerRZ_lt 2 e ltac:(lra)) as Hp.
  assert (IZR (- Z.pos m) < 0) by (apply IZR_lt; lia). nra.
Qed.

Lemma F2R_sign_false m e : 0 < IEEE.F2R (S754_finite false m e).
Proof.
  unfold IEEE.F2R, cond_Zopp.
  pose proof (powerRZ_lt 2 e ltac:(lra)) as Hp.
  assert (0 < IZR (Z.pos m)) by (apply IZR_lt; lia). nra.
Qed.

Lemma F2R_shifted sx m e (n : nat) :
  IEEE.F2R (S754_finite sx (Nat.iter n xO m) (e - Z.of_nat n))
  = IEEE.F2R (S754_finite sx m e).
Proof.
  induction n as [| n IH].
  - cbn [Nat.iter nat_rect Z.of_nat]. now rewrite Z.sub_0_r.
  - rewrite <- IH. unfold IEEE.F2R. cbn [Nat.iter nat_rect].
    change (nat_rect (fun _ => positive) m (fun _ => xO) n)
      with (Nat.iter n xO m).
    replace (e - Z.of_nat n)%Z with ((e - Z.of_nat (S n)) + 1)%Z by lia.
    rewrite powerRZ_add by lra.
    replace (cond_Zopp sx (Zpos (Nat.iter n xO m)~0))
      with (2 * cond_Zopp sx (Zpos (Nat.iter n xO m)))%Z
      by (destruct sx; reflexivity).
    rewrite mult_IZR, powerRZ_1. ring.
Qed.

Lemma powerRZ_2_le (a b : Z) : (a <= b)%Z -> powerRZ 2 a <= powerRZ 2 b.
Proof.
  intros Hab. replace b with (a + Z.of_nat (Z.to_nat (b - a)))%Z by lia.
  rewrite powerRZ_add by lra. rewrite <- pow_powerRZ.
  pose proof (powerRZ_lt 2 a ltac:(lra)) as Hp.
  pose proof (pow_R1_Rle 2 (Z.to_nat (b - a)) ltac:(lra)) as H1.
  nra.
Qed.

Lemma IZR_pos_ge_pow (m : positive) :
  powerRZ 2 (Zpos (digits2_pos m) - 1) <= IZR (Zpos m).
Proof.
  induction m as [p IH | p IH |].
  - cbn [digits2_pos]. rewrite Pos2Z.inj_succ, (Pos2Z.inj_xI p), plus_IZR, mult_IZR.
    replace (Z.succ (Zpos (digits2_pos p)) - 1)%Z
      with ((Zpos (digits2_pos p) - 1) + 1)%Z by lia.
    rewrite powerRZ_add, powerRZ_1 by lra.
    set (q := powerRZ 2 (Zpos (digits2_pos p) - 1)) in *.
    set (r := IZR (Zpos p)) in *. clearbody q r. lra.
  - cbn [digits2_pos]. rewrite Pos2Z.inj_succ, (Pos2Z.inj_xO p), mult_IZR.
    replace (Z.succ (Zpos (digits2_pos p)) - 1)%Z
      with ((Zpos (digits2_pos p) - 1) + 1)%Z by lia.
    rewrite powerRZ_add, powerRZ_1 by lra.
    set (q := powerRZ 2 (Zpos (digits2_pos p) - 1)) in *.
    set (r := IZR (Zpos p)) in *. clearbody q r. lra.
  - cbn. lra.
Qed.

Lemma Rabs_F2R_finite sx m e :
  Rabs (IEEE.F2R (S754_finite sx m e)) = IZR (Zpos m) * powerRZ 2 e.
Proof.
  pose proof (powerRZ_lt 2 e ltac:(lra)) as Hp.
  assert (Hm : 0 < IZR (Zpos m)) by (apply IZR_lt; lia).
  destruct sx.
  - pose proof (F2R_sign_true m e) as Hneg.
    rewrite Rabs_left by exact Hneg.
    unfold IEEE.F2R, cond_Zopp. rewrite opp_IZR. ring.
  - pose proof (F2R_sign_false m e) as Hpos.
    rewrite Rabs_pos_eq by lra. reflexivity.
Qed.

Lemma below_binary32_range sx m e :
  Rabs (IEEE.F2R (S754_finite sx m e)) < powerRZ 2 (-150) ->
  (Zpos (digits2_pos m) + e <= -150)%Z.
Proof.
  rewrite Rabs_F2R_finite. intros Hlt.
  destruct (Z_le_gt_dec (Zpos (digits2_pos m) + e) (-150)) as [Hle | Hgt];
    [exact Hle | exfalso].
  pose proof (powerRZ_2_le (-150) ((Zpos (digits2_pos m) - 1) + e) ltac:(lia))
    as Hmono.
  rewrite powerRZ_add in Hmono by lra.
  pose proof (IZR_pos_ge_pow m) as Hm.
  pose proof (powerRZ_lt 2 e ltac:(lra)) as Hp.
  nra.
Qed.

Lemma shiftl_iter (m : positive) (k : N) :
  Pos.shiftl m k = Nat.iter (N.to_nat k) xO m.
Proof.
  destruct k as [| k]; [reflexivity |].
  cbn [Pos.shiftl N.to_nat]. apply Pos2Nat.inj_iter.
Qed.

(** X9: a configured [double] whose value is a binary32 number, that is one
    of the form (m * 2^k) * 2^(e - k) with (m, e) a valid binary32 mantissa
    and exponent, is stored unchanged: the stored float is (m, e) and
    [work] uses exactly the configured value.  With k = 53 - digits(m) the
    configured value is a valid binary64 number. *)
Theorem binary32_parameter_stored_exactly :
  forall (sx : bool) (m : positive) (e : Z) (k : N) (other : IEEE.float64),
    IEEE.is_float32 (S754_finite sx m e) = true ->
    mass (new (S754_finite sx (Pos.shiftl m k) (e - Z.of_N k)) other)
      = S754_finite sx m e /\
    width (new other (S754_finite sx (Pos.shiftl m k) (e - Z.of_N k)))
      = S754_finite sx m e /\
    IEEE.F2R (IEEE.double_to_float
                (S754_finite sx (Pos.shiftl m k) (e - Z.of_N k)))
      = IEEE.F2R (S754_finite sx (Pos.shiftl m k) (e - Z.of_N k)) /\
    (Z.of_N k = (53 - Zpos (digits2_pos m))%Z ->
     IEEE.is_float64 (S754_finite sx (Pos.shiftl m k) (e - Z.of_N k)) = true).
Proof.
  intros sx m e k other Hvalid.
  assert (Hconv : IEEE.double_to_float
                    (S754_finite sx (Pos.shiftl m k) (e - Z.of_N k))
                  = S754_finite sx m e).
  { cbn [IEEE.double_to_float]. rewrite shiftl_iter, <- N_nat_Z.
    now apply binary_round_shifted. }
  cbn [new mass width]. rewrite Hconv.
  split; [reflexivity | split; [reflexivity | split]].
  - rewrite shiftl_iter, <- N_nat_Z. symmetry. apply F2R_shifted.
  - intros Hk.
    unfold IEEE.is_float32, valid_binary, bounded in Hvalid.
    apply andb_prop in Hvalid as [Hcan Hle].
    unfold canonical_mantissa in Hcan.
    apply Z.eqb_eq in Hcan. apply Z.leb_le in Hle.
    unfold fexp, emin, IEEE.prec32, IEEE.emax32 in Hcan, Hle.
    pose proof (Pos2Z.is_pos (digits2_pos m)) as Hdpos.
    unfold IEEE.is_float64, valid_binary, bounded, canonical_mantissa.
    rewrite shiftl_iter, digits2_pos_xO, N_nat_Z.
    apply andb_true_intro. split; [apply Z.eqb_eq | apply Z.leb_le];
      unfold fexp, emin, IEEE.prec64, IEEE.emax64; lia.
Qed.

(** X10: a configured finite [double] of magnitude below 2^-150, half the
    smallest positive binary32 number, is stored as a zero of the same
    sign: a configured width > 0 does not guarantee a stored width > 0. *)
Theorem tiny_parameter_stored_as_zero :
  forall (sx : bool) (m : positive) (e : Z) (other : IEEE.float64),
    Rabs (IEEE.F2R (S754_finite sx m e)) < powerRZ 2 (-150) ->
    mass (new (S754_finite sx m e) other) = S754_zero sx /\
    width (new other (S754_finite sx m e)) = S754_zero sx /\
    IEEE.F2R (width (new other (S754_finite sx m e))) = 0.
Proof.
  intros sx m e other Hsmall.
  apply below_binary32_range in Hsmall.
  cbn [new mass width IEEE.double_to_float].
  rewrite binary_round_underflow by exact Hsmall.
  repeat split.
Qed.

Lemma shr_1_nonneg mrs : (0 <= shr_m mrs)%Z -> (0 <= shr_m (shr_1 mrs))%Z.
Proof.
  destruct mrs as [m r s]. cbn [shr_m]. intros Hm.
  destruct m as [| p | p]; [cbn; lia | destruct p; cbn; lia | lia].
Qed.

Lemma shr_nonneg mrs e n :
  (0 <= shr_m mrs)%Z -> (0 <= shr_m (fst (shr mrs e n)))%Z.
Proof.
  intros Hm. destruct n as [| p | p]; cbn [shr fst]; try exact Hm.
  rewrite iter_pos_nat.
  induction (Pos.to_nat p) as [| k IH]; [exact Hm |].
  cbn [Nat.iter nat_rect]. apply shr_1_nonneg, IH.
Qed.

Lemma shr_fexp_nonneg prec emax m e l :
  (0 <= m)%Z -> (0 <= shr_m (fst (shr_fexp prec emax m e l)))%Z.
Proof.
  intros Hm. unfold shr_fexp. apply shr_nonneg.
  destruct l as [| []]; exact Hm.
Qed.

Lemma round_nearest_even_nonneg mx lx :
  (0 <= mx)%Z -> (0 <= round_nearest_even mx lx)%Z.
Proof.
  intros Hm. destruct lx as [| []]; cbn [round_nearest_even];
    try destruct (Z.even mx); lia.
Qed.

(** Rounding a non-negative mantissa gives a zero, a finite number or an
    infinity, with the sign it was given. *)
Lemma binary_round_aux_class prec emax sx mx ex lx :
  (0 <= mx)%Z ->
  match binary_round_aux prec emax sx mx ex lx with
  | S754_zero s | S754_infinity s | S754_finite s _ _ => s = sx
  | S754_nan => False
  end.
Proof.
  intros Hm. unfold binary_round_aux.
  pose proof (shr_fexp_nonneg prec emax mx ex lx Hm) as H1.
  destruct (shr_fexp prec emax mx ex lx) as [mrs' e']. cbn [fst] in H1.
  pose proof (shr_fexp_nonneg prec emax
                (round_nearest_even (shr_m mrs') (loc_of_shr_record mrs'))
                e' loc_Exact (round_nearest_even_nonneg _ _ H1)) as H2.
  destruct (shr_fexp prec emax _ e' loc_Exact) as [mrs'' e'']. cbn [fst] in H2.
  destruct (shr_m mrs''); [reflexivity | | lia].
  destruct (e'' <=? emax - prec)%Z; reflexivity.
Qed.

(** X11: narrowing a finite configured value never produces a NaN and never
    flips the sign: the stored float is a zero, a finite number or an
    infinity carrying the sign bit of the configured [double], so the
    stored mass and width never have the sign opposite to the configured
    ones (they may vanish). *)
Theorem narrowing_keeps_sign :
  (forall (sx : bool) (m : positive) (e : Z),
      match IEEE.double_to_float (S754_finite sx m e) with
      | S754_zero s | S754_infinity s | S754_finite s _ _ => s = sx
      | S754_nan => False
      end) /\
  (forall m w : IEEE.float64,
      0 <= IEEE.F2R m * IEEE.F2R (mass (new m w)) /\
      0 <= IEEE.F2R w * IEEE.F2R (width (new m w))).
Proof.
  assert (Hclass : forall sx m e,
             match IEEE.double_to_float (S754_finite sx m e) with
             | S754_zero s | S754_infinity s | S754_finite s _ _ => s = sx
             | S754_nan => False
             end).
  { intros sx m e. cbn [IEEE.double_to_float]. unfold binary_round.
    destruct (shl_align m e _) as [mz ez].
    apply binary_round_aux_class. lia. }
  split; [exact Hclass |].
  assert (H : forall d, 0 <= IEEE.F2R d * IEEE.F2R (IEEE.double_to_float d)).
  { intros [sx | sx | | sx m e];
      try (cbn [IEEE.double_to_float IEEE.F2R]; lra).
    specialize (Hclass sx m e).
    destruct (IEEE.double_to_float (S754_finite sx m e))
      as [s' | s' | | s' m' e']; try (cbn [IEEE.F2R]; lra).
    subst s'. destruct sx.
    - pose proof (F2R_sign_true m e). pose proof (F2R_sign_true m' e'). nra.
    - pose proof (F2R_sign_false m e). pose proof (F2R_sign_false m' e'). nra. }
  intros m w. cbn [new mass width]. split; apply H.
Qed.

(** ** Accuracy of the narrowing *)

Lemma shr_inv_start (m0 : Z) :
  (0 <= m0)%Z -> shr_inv m0 0 (Build_shr_record m0 false false).
Proof.
  intros Hm. exists 0%Z. cbn [shr_m shr_r shr_s Z.b2z Z.of_nat].
  repeat split; try lia; try discriminate.
Qed.

Lemma shr_inv_step (m0 : Z) (k : nat) (mrs : shr_record) :
  shr_inv m0 k mrs -> shr_inv m0 (S k) (shr_1 mrs).
Proof.
  intros (t & Heq & Ht & Hs & Hq).
  destruct mrs as [q r s]. cbn [shr_m shr_r shr_s] in *.
  unfold shr_inv. rewrite Nat2Z.inj_succ, Z.pow_succ_r by lia.
  pose proof (Z.pow_pos_nonneg 2 (Z.of_nat k) ltac:(lia) ltac:(lia)) as HP.
  set (P := (2 ^ Z.of_nat k)%Z) in *. clearbody P.
  exists (Z.b2z r * P + t)%Z.
  assert (Hsticky : orb r s = true <-> (0 < Z.b2z r * P + t)%Z).
  { destruct r; cbn [orb Z.b2z]; [split; [lia | reflexivity] |].
    rewrite Hs. lia. }
  assert (Hrange : (0 <= Z.b2z r * P + t < 2 * P)%Z)
    by (destruct r; cbn [Z.b2z]; lia).
  destruct q as [| p | p]; [| destruct p as [p | p |] |]; cbn [shr_1 shr_m shr_r shr_s Z.b2z];
    try lia;
    (split; [| split; [exact Hrange | split; [exact Hsticky | lia]]]).
  - lia.
  - rewrite Pos2Z.inj_xI in Heq. lia.
  - rewrite Pos2Z.inj_xO in Heq. lia.
  - lia.
Qed.

Lemma shr_inv_iter (m0 : Z) (k : nat) :
  (0 <= m0)%Z ->
  shr_inv m0 k (Nat.iter k shr_1 (Build_shr_record m0 false false)).
Proof.
  intros Hm. induction k as [| k IH]; [now apply shr_inv_start |].
  cbn [Nat.iter nat_rect]. now apply shr_inv_step.
Qed.

(** Rounding to nearest after a shift is off by at most half a unit. *)
Lemma round_nearest_even_error (m0 : Z) (k : nat) (mrs : shr_record) :
  shr_inv m0 k mrs ->
  (Z.abs (round_nearest_even (shr_m mrs) (loc_of_shr_record mrs)
          * (2 * 2 ^ Z.of_nat k) - 2 * m0) <= 2 ^ Z.of_nat k)%Z /\
  (shr_m mrs <= round_nearest_even (shr_m mrs) (loc_of_shr_record mrs)
   <= shr_m mrs + 1)%Z.
Proof.
  intros (t & Heq & Ht & Hs & Hq).
  destruct mrs as [q r s]. cbn [shr_m shr_r shr_s] in *.
  pose proof (Z.pow_pos_nonneg 2 (Z.of_nat k) ltac:(lia) ltac:(lia)) as HP.
  set (P := (2 ^ Z.of_nat k)%Z) in *. clearbody P.
  assert (Hst : s = false -> t = 0%Z).
  { intros ->. destruct (Z.eq_dec t 0) as [-> | Hne]; [reflexivity |].
    assert (Hf : false = true) by (apply Hs; lia). discriminate. }
  assert (Hst' : s = true -> (0 < t)%Z) by (intros ->; now apply Hs).
  destruct r, s; cbn [loc_of_shr_record round_nearest_even Z.b2z] in *;
    try specialize (Hst eq_refl); try specialize (Hst' eq_refl);
    try destruct (Z.even q); lia.
Qed.

Lemma digits2_pos_bounds (p : positive) :
  (2 ^ (Zpos (digits2_pos p) - 1) <= Zpos p < 2 ^ Zpos (digits2_pos p))%Z.
Proof.
  induction p as [p IH | p IH |]; cbn [digits2_pos];
    [rewrite Pos2Z.inj_succ, (Pos2Z.inj_xI p)
    | rewrite Pos2Z.inj_succ, (Pos2Z.inj_xO p)
    | cbn; lia];
    replace (Z.succ (Zpos (digits2_pos p)) - 1)%Z
      with (Z.succ (Zpos (digits2_pos p) - 1)) by lia;
    rewrite !Z.pow_succ_r by lia; lia.
Qed.

Lemma digits2_pos_unique (p : positive) (k : Z) :
  (2 ^ (k - 1) <= Zpos p < 2 ^ k)%Z -> (1 <= k)%Z ->
  Zpos (digits2_pos p) = k.
Proof.
  intros [Hlo Hhi] Hk. pose proof (digits2_pos_bounds p) as [Hlo' Hhi'].
  pose proof (Pos2Z.is_pos (digits2_pos p)) as Hd.
  destruct (Z.lt_trichotomy (Zpos (digits2_pos p)) k) as [Hlt | [Heq | Hgt]];
    [exfalso | exact Heq | exfalso].
  - pose proof (Z.pow_le_mono_r 2 (Zpos (digits2_pos p)) (k - 1)
                  ltac:(lia) ltac:(lia)). lia.
  - pose proof (Z.pow_le_mono_r 2 k (Zpos (digits2_pos p) - 1)
                  ltac:(lia) ltac:(lia)). lia.
Qed.

(** Narrowing a 53-bit mantissa whose value lies in the normal binary32
    range: the result denotes [m1 * 2^(e+29)] for [m1] within half a unit
    of [m / 2^29]. *)
Lemma binary_round_normal (sx : bool) (m : positive) (e : Z) :
  Zpos (digits2_pos m) = 53%Z ->
  (-178 <= e <= 74)%Z ->
  exists m1 : Z,
    (Z.abs (m1 * 1073741824 - 2 * Zpos m) <= 536870912)%Z /\
    IEEE.F2R (binary_round IEEE.prec32 IEEE.emax32 sx m e)
    = IZR (cond_Zopp sx m1) * powerRZ 2 (e + 29) /\
    IEEE.is_float32 (binary_round IEEE.prec32 IEEE.emax32 sx m e) = true.
Proof.
  intros Hd He.
  assert (Hfexp : fexp IEEE.prec32 IEEE.emax32 (Zpos (digits2_pos m) + e)
                  = (e + 29)%Z)
    by (rewrite Hd; unfold fexp, emin, IEEE.prec32, IEEE.emax32; lia).
  unfold binary_round. rewrite Hfexp.
  assert (Hal : shl_align m e (e + 29) = (m, e)).
  { unfold shl_align. replace (e + 29 - e)%Z with 29%Z by lia. reflexivity. }
  rewrite Hal. unfold binary_round_aux.
  set (mrs' := Nat.iter 29 shr_1 (Build_shr_record (Zpos m) false false)).
  assert (Hshr : shr_fexp IEEE.prec32 IEEE.emax32 (Zpos m) e loc_Exact
                 = (mrs', (e + 29)%Z)).
  { unfold shr_fexp. cbn [Zdigits2 shr_record_of_loc]. rewrite Hfexp.
    replace (e + 29 - e)%Z with (Z.of_nat 29) by lia.
    rewrite shr_nat. reflexivity. }
  rewrite Hshr.
  pose proof (shr_inv_iter (Zpos m) 29 ltac:(lia)) as Hinv. fold mrs' in Hinv.
  pose proof (round_nearest_even_error _ _ _ Hinv) as [Herr Hm1].
  destruct Hinv as (t & Heq & Ht & _ & Hq).
  change (2 ^ Z.of_nat 29)%Z with 536870912%Z in *.
  pose proof (digits2_pos_bounds m) as Hmb. rewrite Hd in Hmb.
  change (2 ^ (53 - 1))%Z with 4503599627370496%Z in Hmb.
  change (2 ^ 53)%Z with 9007199254740992%Z in Hmb.
  set (m1 := round_nearest_even (shr_m mrs') (loc_of_shr_record mrs')) in *.
  assert (Hm1b : (8388608 <= m1 <= 16777216)%Z)
    by (destruct (shr_r mrs'); cbn [Z.b2z] in Heq; lia).
  clearbody m1. exists m1. split; [lia |].
  destruct m1 as [| p1 | p1]; try lia.
  destruct (Z.eq_dec (Zpos p1) 16777216) as [Htop | Hlow].
  - injection Htop as ->.
    replace (shr_fexp IEEE.prec32 IEEE.emax32 16777216 (e + 29) loc_Exact)
      with (Build_shr_record 8388608 false false, (e + 30)%Z).
    + cbn [shr_m].
      replace (e + 30 <=? IEEE.emax32 - IEEE.prec32)%Z with true
        by (symmetry; apply Z.leb_le; unfold IEEE.emax32, IEEE.prec32; lia).
      split.
      * unfold IEEE.F2R.
        replace (e + 30)%Z with ((e + 29) + 1)%Z by lia.
        rewrite powerRZ_add, powerRZ_1 by lra.
        destruct sx; cbn [cond_Zopp Z.opp]; lra.
      * unfold IEEE.is_float32, valid_binary, bounded, canonical_mantissa.
        apply andb_true_intro. split; [apply Z.eqb_eq | apply Z.leb_le];
          cbn [digits2_pos Pos.succ];
          unfold fexp, emin, IEEE.prec32, IEEE.emax32; lia.
    + unfold shr_fexp. cbn [Zdigits2 shr_record_of_loc digits2_pos Pos.succ].
      replace (fexp IEEE.prec32 IEEE.emax32 (25 + (e + 29)) - (e + 29))%Z
        with 1%Z
        by (unfold fexp, emin, IEEE.prec32, IEEE.emax32; lia).
      cbn [shr iter_pos shr_1 orb]. f_equal. lia.
  - assert (Hd1 : Zpos (digits2_pos p1) = 24%Z).
    { apply digits2_pos_unique; [| lia].
      change (2 ^ (24 - 1))%Z with 8388608%Z.
      change (2 ^ 24)%Z with 16777216%Z. lia. }
    replace (shr_fexp IEEE.prec32 IEEE.emax32 (Zpos p1) (e + 29) loc_Exact)
      with (Build_shr_record (Zpos p1) false false, (e + 29)%Z).
    + cbn [shr_m].
      replace (e + 29 <=? IEEE.emax32 - IEEE.prec32)%Z with true
        by (symmetry; apply Z.leb_le; unfold IEEE.emax32, IEEE.prec32; lia).
      split; [reflexivity |].
      unfold IEEE.is_float32, valid_binary, bounded, canonical_mantissa.
      apply andb_true_intro. split; [apply Z.eqb_eq | apply Z.leb_le];
        rewrite ?Hd1; unfold fexp, emin, IEEE.prec32, IEEE.emax32; lia.
    + unfold shr_fexp. cbn [Zdigits2 shr_record_of_loc]. rewrite Hd1.
      replace (fexp IEEE.prec32 IEEE.emax32 (24 + (e + 29)) - (e + 29))%Z
        with 0%Z
        by (unfold fexp, emin, IEEE.prec32, IEEE.emax32; lia).
      reflexivity.
Qed.

Lemma IZR_pow2 (d : positive) : IZR (2 ^ Zpos d) = powerRZ 2 (Zpos d).
Proof. exact (Zpower_pos_powerRZ 2 d). Qed.

Lemma IZR_pos_lt_pow (m : positive) :
  IZR (Zpos m) < powerRZ 2 (Zpos (digits2_pos m)).
Proof.
  rewrite <- IZR_pow2. apply IZR_lt. apply digits2_pos_bounds.
Qed.

Lemma powerRZ_2_lt_inv (a b : Z) : powerRZ 2 a < powerRZ 2 b -> (a < b)%Z.
Proof.
  intros Hlt. destruct (Z_lt_le_dec a b) as [H | H]; [exact H | exfalso].
  pose proof (powerRZ_2_le b a H). lra.
Qed.

(** A valid [double] whose magnitude lies in the normal binary32 range has
    a full 53-bit mantissa and an exponent the narrowing can keep. *)
Lemma normal_range_shape sx m e :
  IEEE.is_float64 (S754_finite sx m e) = true ->
  powerRZ 2 (-126) <= Rabs (IEEE.F2R (S754_finite sx m e)) < powerRZ 2 127 ->
  Zpos (digits2_pos m) = 53%Z /\ (-178 <= e <= 74)%Z.
Proof.
  intros Hvalid [Hlo Hhi]. rewrite Rabs_F2R_finite in Hlo, Hhi.
  unfold IEEE.is_float64, valid_binary, bounded in Hvalid.
  apply andb_prop in Hvalid as [Hcan _].
  unfold canonical_mantissa in Hcan. apply Z.eqb_eq in Hcan.
  unfold fexp, emin, IEEE.prec64, IEEE.emax64 in Hcan.
  pose proof (powerRZ_lt 2 e ltac:(lra)) as HE.
  assert (Hup : (-126 < Zpos (digits2_pos m) + e)%Z).
  { apply powerRZ_2_lt_inv. rewrite powerRZ_add by lra.
    pose proof (IZR_pos_lt_pow m). nra. }
  assert (Hdown : (Zpos (digits2_pos m) - 1 + e < 127)%Z).
  { apply powerRZ_2_lt_inv. rewrite powerRZ_add by lra.
    pose proof (IZR_pos_ge_pow m). nra. }
  lia.
Qed.

(** X12: a configured [double] whose magnitude lies in the normal binary32
    range, from 2^-126 (about 1.2e-38) up to 2^127 (about 1.7e38), is
    stored, as mass or as width, as a valid binary32 number within relative
    error 2^-24 of the configured value. *)
Theorem narrowing_relative_error :
  forall (sx : bool) (m : positive) (e : Z) (other : IEEE.float64),
    IEEE.is_float64 (S754_finite sx m e) = true ->
    powerRZ 2 (-126) <= Rabs (IEEE.F2R (S754_finite sx m e)) < powerRZ 2 127 ->
    (IEEE.is_float32 (mass (new (S754_finite sx m e) other)) = true /\
     Rabs (IEEE.F2R (mass (new (S754_finite sx m e) other))
           - IEEE.F2R (S754_finite sx m e))
     <= powerRZ 2 (-24) * Rabs (IEEE.F2R (S754_finite sx m e))) /\
    (IEEE.is_float32 (width (new other (S754_finite sx m e))) = true /\
     Rabs (IEEE.F2R (width (new other (S754_finite sx m e)))
           - IEEE.F2R (S754_finite sx m e))
     <= powerRZ 2 (-24) * Rabs (IEEE.F2R (S754_finite sx m e))).
Proof.
  intros sx m e other Hvalid Hrange.
  destruct (normal_range_shape sx m e Hvalid Hrange) as [Hd He].
  destruct (binary_round_normal sx m e Hd He) as (m1 & Herr & Hval & Hf32).
  cbn [new mass width IEEE.double_to_float].
  enough (Hbound :
            Rabs (IEEE.F2R (binary_round IEEE.prec32 IEEE.emax32 sx m e)
                  - IEEE.F2R (S754_finite sx m e))
            <= powerRZ 2 (-24) * Rabs (IEEE.F2R (S754_finite sx m e)))
    by (split; split; assumption).
  rewrite Hval, Rabs_F2R_finite.
  pose proof (powerRZ_lt 2 e ltac:(lra)) as HE.
  rewrite powerRZ_add by lra.
  rewrite <- (IZR_pow2 29). change (2 ^ 29)%Z with 536870912%Z.
  rewrite powerRZ_2_neg.
  replace (Z.pow_pos 2 24) with 16777216%Z by (vm_compute; reflexivity).
  pose proof (digits2_pos_bounds m) as [Hmlo _]. rewrite Hd in Hmlo.
  change (2 ^ (53 - 1))%Z with 4503599627370496%Z in Hmlo.
  apply IZR_le in Hmlo.
  apply Z.abs_le in Herr. destruct Herr as [Hlo Hhi].
  apply IZR_le in Hlo, Hhi.
  rewrite minus_IZR, !mult_IZR in Hlo, Hhi. rewrite opp_IZR in Hlo.
  unfold IEEE.F2R.
  assert (Hs1 : IZR (cond_Zopp sx m1) = (if sx then -1 else 1) * IZR m1)
    by (destruct sx; cbn [cond_Zopp]; rewrite ?opp_IZR; ring).
  assert (Hs0 : IZR (cond_Zopp sx (Zpos m))
                = (if sx then -1 else 1) * IZR (Zpos m))
    by (destruct sx; cbn [cond_Zopp]; rewrite ?opp_IZR; ring).
  rewrite Hs1, Hs0.
  set (E := powerRZ 2 e) in *. set (M := IZR (Zpos m)) in *.
  set (M1 := IZR m1) in *. clearbody E M M1.
  apply Rabs_le. destruct sx; nra.
Qed.

(** Narrowing a 53-bit mantissa whose value is 2^128 or more overflows. *)
Lemma binary_round_overflow (sx : bool) (m : positive) (e : Z) :
  Zpos (digits2_pos m) = 53%Z ->
  (76 <= e)%Z ->
  binary_round IEEE.prec32 IEEE.emax32 sx m e = S754_infinity sx.
Proof.
  intros Hd He.
  assert (Hfexp : fexp IEEE.prec32 IEEE.emax32 (Zpos (digits2_pos m) + e)
                  = (e + 29)%Z)
    by (rewrite Hd; unfold fexp, emin, IEEE.prec32, IEEE.emax32; lia).
  unfold binary_round. rewrite Hfexp.
  assert (Hal : shl_align m e (e + 29) = (m, e)).
  { unfold shl_align. replace (e + 29 - e)%Z with 29%Z by lia. reflexivity. }
  rewrite Hal. unfold binary_round_aux.
  set (mrs' := Nat.iter 29 shr_1 (Build_shr_record (Zpos m) false false)).
  assert (Hshr : shr_fexp IEEE.prec32 IEEE.emax32 (Zpos m) e loc_Exact
                 = (mrs', (e + 29)%Z)).
  { unfold shr_fexp. cbn [Zdigits2 shr_record_of_loc]. rewrite Hfexp.
    replace (e + 29 - e)%Z with (Z.of_nat 29) by lia.
    rewrite shr_nat. reflexivity. }
  rewrite Hshr.
  pose proof (shr_inv_iter (Zpos m) 29 ltac:(lia)) as Hinv. fold mrs' in Hinv.
  pose proof (round_nearest_even_error _ _ _ Hinv) as [_ Hm1].
  destruct Hinv as (t & Heq & Ht & _ & Hq).
  change (2 ^ Z.of_nat 29)%Z with 536870912%Z in *.
  pose proof (digits2_pos_bounds m) as Hmb. rewrite Hd in Hmb.
  change (2 ^ (53 - 1))%Z with 4503599627370496%Z in Hmb.
  change (2 ^ 53)%Z with 9007199254740992%Z in Hmb.
  set (m1 := round_nearest_even (shr_m mrs') (loc_of_shr_record mrs')) in *.
  assert (Hm1b : (8388608 <= m1 <= 16777216)%Z)
    by (destruct (shr_r mrs'); cbn [Z.b2z] in Heq; lia).
  clearbody m1.
  destruct m1 as [| p1 | p1]; try lia.
  destruct (Z.eq_dec (Zpos p1) 16777216) as [Htop | Hlow].
  - injection Htop as ->.
    replace (shr_fexp IEEE.prec32 IEEE.emax32 16777216 (e + 29) loc_Exact)
      with (Build_shr_record 8388608 false false, (e + 30)%Z).
    + cbn [shr_m].
      replace (e + 30 <=? IEEE.emax32 - IEEE.prec32)%Z with false
        by (symmetry; apply Z.leb_gt; unfold IEEE.emax32, IEEE.prec32; lia).
      reflexivity.
    + unfold shr_fexp. cbn [Zdigits2 shr_record_of_loc digits2_pos Pos.succ].
      replace (fexp IEEE.prec32 IEEE.emax32 (25 + (e + 29)) - (e + 29))%Z
        with 1%Z
        by (unfold fexp, emin, IEEE.prec32, IEEE.emax32; lia).
      cbn [shr iter_pos shr_1 orb]. f_equal. lia.
  - assert (Hd1 : Zpos (digits2_pos p1) = 24%Z).
    { apply digits2_pos_unique; [| lia].
      change (2 ^ (24 - 1))%Z with 8388608%Z.
      change (2 ^ 24)%Z with 16777216%Z. lia. }
    replace (shr_fexp IEEE.prec32 IEEE.emax32 (Zpos p1) (e + 29) loc_Exact)
      with (Build_shr_record (Zpos p1) false false, (e + 29)%Z).
    + cbn [shr_m].
      replace (e + 29 <=? IEEE.emax32 - IEEE.prec32)%Z with false
        by (symmetry; apply Z.leb_gt; unfold IEEE.emax32, IEEE.prec32; lia).
      reflexivity.
    + unfold shr_fexp. cbn [Zdigits2 shr_record_of_loc]. rewrite Hd1.
      replace (fexp IEEE.prec32 IEEE.emax32 (24 + (e + 29)) - (e + 29))%Z
        with 0%Z
        by (unfold fexp, emin, IEEE.prec32, IEEE.emax32; lia).
      reflexivity.
Qed.

(** X13: a configured valid [double] of magnitude 2^128 (about 3.4e38) or
    more is stored as an infinity of the same sign. *)
Theorem huge_parameter_stored_as_infinity :
  forall (sx : bool) (m : positive) (e : Z) (other : IEEE.float64),
    IEEE.is_float64 (S754_finite sx m e) = true ->
    powerRZ 2 128 <= Rabs (IEEE.F2R (S754_finite sx m e)) ->
    mass (new (S754_finite sx m e) other) = S754_infinity sx /\
    width (new other (S754_finite sx m e)) = S754_infinity sx.
Proof.
  intros sx m e other Hvalid Hbig. rewrite Rabs_F2R_finite in Hbig.
  unfold IEEE.is_float64, valid_binary, bounded in Hvalid.
  apply andb_prop in Hvalid as [Hcan _].
  unfold canonical_mantissa in Hcan. apply Z.eqb_eq in Hcan.
  unfold fexp, emin, IEEE.prec64, IEEE.emax64 in Hcan.
  pose proof (powerRZ_lt 2 e ltac:(lra)) as HE.
  assert (Hup : (128 < Zpos (digits2_pos m) + e)%Z).
  { apply powerRZ_2_lt_inv. rewrite powerRZ_add by lra.
    pose proof (IZR_pos_lt_pow m). nra. }
  cbn [new mass width IEEE.double_to_float].
  rewrite binary_round_overflow by lia. split; reflexivity.
Qed.

(** ** From the configuration to the outputs *)

Lemma jacobian_pos_on_unit_interval self pool :
  0 < IEEE.F2R (mass self) ->
  0 < IEEE.F2R (width self) ->
  0 <= ps_point pool < 1 ->
  0 < jacobian (work self pool).
Proof.
  intros Hm Hw Hx.
  pose proof (cos_pos_between_poles _ (work_y_between_poles self pool Hx)) as Hc.
  pose proof (work_range_pos self) as Hr.
  rewrite work_jacobian. apply Rdiv_lt_0_compat.
  - rewrite Rmult_assoc. apply Rmult_lt_0_compat; [exact Hr |].
    now apply Rmult_lt_0_compat.
  - now apply Rmult_lt_0_compat.
Qed.

(** A positive [double] in the normal binary32 range is stored positive. *)
Lemma positive_normal_stored_positive (m : positive) (e : Z) :
  IEEE.is_float64 (S754_finite false m e) = true ->
  powerRZ 2 (-126) <= IEEE.F2R (S754_finite false m e) < powerRZ 2 127 ->
  0 < IEEE.F2R (IEEE.double_to_float (S754_finite false m e)).
Proof.
  intros Hvalid Hrange.
  rewrite <- (Rabs_pos_eq (IEEE.F2R (S754_finite false m e))) in Hrange
    by (left; apply F2R_sign_false).
  destruct (normal_range_shape false m e Hvalid Hrange) as [Hd He].
  destruct (binary_round_normal false m e Hd He) as (m1 & Herr & Hval & _).
  cbn [IEEE.double_to_float]. rewrite Hval. cbn [cond_Zopp].
  pose proof (digits2_pos_bounds m) as [Hmlo _]. rewrite Hd in Hmlo.
  change (2 ^ (53 - 1))%Z with 4503599627370496%Z in Hmlo.
  apply Rmult_lt_0_compat; [apply IZR_lt; lia | apply powerRZ_lt; lra].
Qed.

(** X14: a module configured with a positive mass and a positive width,
    both valid [double]s in the normal binary32 range, stores a positive
    mass and width, and its Jacobian is positive at every sample of
    [[0,1)]. *)
Theorem configured_positive_gives_positive_jacobian :
  forall (mm mw : positive) (em ew : Z) (pool : Pool),
    IEEE.is_float64 (S754_finite false mm em) = true ->
    IEEE.is_float64 (S754_finite false mw ew) = true ->
    powerRZ 2 (-126) <= IEEE.F2R (S754_finite false mm em) < powerRZ 2 127 ->
    powerRZ 2 (-126) <= IEEE.F2R (S754_finite false mw ew) < powerRZ 2 127 ->
    0 <= ps_point pool < 1 ->
    0 < IEEE.F2R (mass (new (S754_finite false mm em) (S754_finite false mw ew)))
    /\
    0 < IEEE.F2R (width (new (S754_finite false mm em) (S754_finite false mw ew)))
    /\
    0 < jacobian (work (new (S754_finite false mm em) (S754_finite false mw ew))
                    pool).
Proof.
  intros mm mw em ew pool Hvm Hvw Hrm Hrw Hx.
  pose proof (positive_normal_stored_positive mm em Hvm Hrm) as Hm.
  pose proof (positive_normal_stored_positive mw ew Hvw Hrw) as Hw.
  split; [exact Hm | split; [exact Hw |]].
  now apply jacobian_pos_on_unit_interval.
Qed.

(** ** The further properties at concrete configurations *)


Lemma binary32_parameter_stored_exactly_witness :
  mass (new (S754_finite false (Pos.shiftl 8388608 29) (-23 - Z.of_N 29)) one)
  = S754_finite false 8388608 (-23) /\
  width (new one (S754_finite false (Pos.shiftl 8388608 29) (-23 - Z.of_N 29)))
  = S754_finite false 8388608 (-23) /\
  IEEE.F2R (IEEE.double_to_float
              (S754_finite false (Pos.shiftl 8388608 29) (-23 - Z.of_N 29)))
  = IEEE.F2R (S754_finite false (Pos.shiftl 8388608 29) (-23 - Z.of_N 29)) /\
  (Z.of_N 29 = (53 - Zpos (digits2_pos 8388608))%Z ->
   IEEE.is_float64
     (S754_finite false (Pos.shiftl 8388608 29) (-23 - Z.of_N 29)) = true).
Proof.
  apply (binary32_parameter_stored_exactly false 8388608 (-23) 29 one).
  vm_compute. reflexivity.
Defined.

Lemma tiny_parameter_stored_as_zero_witness :
  mass (new two_pow_minus_200 one) = S754_zero false /\
  width (new one two_pow_minus_200) = S754_zero false /\
  IEEE.F2R (width (new one two_pow_minus_200)) = 0.
Proof.
  apply (tiny_parameter_stored_as_zero false 4503599627370496 (-252) one).
  rewrite Rabs_F2R_finite, !powerRZ_2_neg.
  replace (Z.pow_pos 2 252)
    with (4503599627370496 * Z.pow_pos 2 200)%Z by (vm_compute; reflexivity).
  replace (Z.pow_pos 2 150)
    with 1427247692705959881058285969449495136382746624%Z
    by (vm_compute; reflexivity).
  replace (Z.pow_pos 2 200)
    with 1606938044258990275541962092341162602522202993782792835301376%Z
    by (vm_compute; reflexivity).
  rewrite mult_IZR. 
  apply Rmult_lt_reg_r
    with (IZR 4503599627370496
          * IZR 1606938044258990275541962092341162602522202993782792835301376);
    [lra |].
  field_simplify; lra.
Defined.

Lemma narrowing_relative_error_witness :
  (IEEE.is_float32 (mass (new one_tenth one)) = true /\
   Rabs (IEEE.F2R (mass (new one_tenth one)) - IEEE.F2R one_tenth)
   <= powerRZ 2 (-24) * Rabs (IEEE.F2R one_tenth)) /\
  (IEEE.is_float32 (width (new one one_tenth)) = true /\
   Rabs (IEEE.F2R (width (new one one_tenth)) - IEEE.F2R one_tenth)
   <= powerRZ 2 (-24) * Rabs (IEEE.F2R one_tenth)).
Proof.
  apply (narrowing_relative_error false 7205759403792794 (-56) one).
  - vm_compute. reflexivity.
  - rewrite Rabs_F2R_finite, !powerRZ_2_neg, <- (IZR_pow2 127).
    replace (Z.pow_pos 2 56) with 72057594037927936%Z
      by (vm_compute; reflexivity).
    replace (Z.pow_pos 2 126)
      with 85070591730234615865843651857942052864%Z
      by (vm_compute; reflexivity).
    replace (2 ^ 127)%Z with 170141183460469231731687303715884105728%Z
      by (vm_compute; reflexivity).
    split; lra.
Defined.

Lemma huge_parameter_stored_as_infinity_witness :
  mass (new two_pow_200 one) = S754_infinity false /\
  width (new one two_pow_200) = S754_infinity false.
Proof.
  apply (huge_parameter_stored_as_infinity false 4503599627370496 148 one).
  - vm_compute. reflexivity.
  - rewrite Rabs_F2R_finite, <- (IZR_pow2 128), <- (IZR_pow2 148).
    rewrite <- mult_IZR. apply IZR_le. vm_compute. discriminate.
Defined.

Lemma one_tenth_in_normal_range :
  powerRZ 2 (-126) <= IEEE.F2R one_tenth < powerRZ 2 127.
Proof.
  rewrite F2R_one_tenth, powerRZ_2_neg, <- (IZR_pow2 127).
  replace (Z.pow_pos 2 126)
    with 85070591730234615865843651857942052864%Z
    by (vm_compute; reflexivity).
  replace (2 ^ 127)%Z with 170141183460469231731687303715884105728%Z
    by (vm_compute; reflexivity).
  split; lra.
Qed.

Lemma configured_positive_gives_positive_jacobian_witness :
  0 < IEEE.F2R (mass (new one_tenth one_tenth)) /\
  0 < IEEE.F2R (width (new one_tenth one_tenth)) /\
  0 < jacobian (work (new one_tenth one_tenth) (pool_at (1 / 2))).
Proof.
  apply (configured_positive_gives_positive_jacobian
           7205759403792794 7205759403792794 (-56) (-56) (pool_at (1 / 2))).
  - vm_compute. reflexivity.
  - vm_compute. reflexivity.
  - exact one_tenth_in_normal_range.
  - exact one_tenth_in_normal_range.
  - cbn [ps_point pool_at]. lra.
Defined.

(** * The program in floating-point arithmetic *)

(** ** Propagation of zeros, infinities and NaN *)

Lemma dadd_pos_infinity (x : IEEE.float64) :
  FP.dadd x (S754_infinity false) = S754_infinity false \/
  FP.dadd x (S754_infinity false) = S754_nan.
Proof. destruct x as [sx | [|] | | sx m e]; cbn; auto. Qed.

Lemma dmul_zero_l (sx : bool) (t : IEEE.float64) :
  (exists sz, FP.dmul (S754_zero sx) t = S754_zero sz) \/
  FP.dmul (S754_zero sx) t = S754_nan.
Proof. destruct t as [st | st | | st m e]; cbn; eauto. Qed.

Lemma dadd_zero_pos_zero (sx : bool) :
  FP.dadd (S754_zero sx) (S754_zero false) = S754_zero false.
Proof. destruct sx; reflexivity. Qed.


(** ** The three configurations *)

Lemma heavy_generator_stored :
  mass heavy_generator = S754_finite false 8388608 47 /\
  width heavy_generator = S754_finite false 8388608 (-23).
Proof. split; vm_compute; reflexivity. Qed.

Lemma faint_generator_stored :
  mass faint_generator = S754_finite false 8388608 (-123) /\
  width faint_generator = S754_finite false 8388608 (-123).
Proof. split; vm_compute; reflexivity. Qed.

Lemma narrow_generator_stored :
  mass narrow_generator = S754_finite false 8388608 (-25) /\
  width narrow_generator = S754_finite false 1 (-149).
Proof. split; vm_compute; reflexivity. Qed.

(** Each of them has a positive finite mass and width, configured and
    stored. *)
Lemma configurations_positive :
  (0 < IEEE.F2R (mass heavy_generator) /\ 0 < IEEE.F2R (width heavy_generator)) /\
  (0 < IEEE.F2R (mass faint_generator) /\ 0 < IEEE.F2R (width faint_generator)) /\
  (0 < IEEE.F2R (mass narrow_generator) /\ 0 < IEEE.F2R (width narrow_generator)).
Proof.
  destruct heavy_generator_stored as [-> ->].
  destruct faint_generator_stored as [-> ->].
  destruct narrow_generator_stored as [-> ->].
  repeat split; apply F2R_sign_false.
Qed.

(** At mass 2^70 the binary32 square overflows, whatever libm returns. *)
Lemma heavy_s (lm : FP.Libm) (pool : FP.Pool) :
  FP.s (FP.work lm heavy_generator pool) = S754_infinity false \/
  FP.s (FP.work lm heavy_generator pool) = S754_nan.
Proof.
  unfold FP.work. cbn [FP.s].
  destruct heavy_generator_stored as [-> ->].
  replace (FP.float_to_double
             (FP.fmul (S754_finite false 8388608 47)
                      (S754_finite false 8388608 47)))
    with (S754_infinity false) by (vm_compute; reflexivity).
  apply dadd_pos_infinity.
Qed.

(** At mass = width = 2^-100 both binary32 products underflow to zero. *)
Lemma faint_s (lm : FP.Libm) (pool : FP.Pool) :
  FP.s (FP.work lm faint_generator pool) = S754_zero false \/
  FP.s (FP.work lm faint_generator pool) = S754_nan.
Proof.
  unfold FP.work. cbn [FP.s].
  destruct faint_generator_stored as [-> ->].
  replace (FP.float_to_double
             (FP.fmul (S754_finite false 8388608 (-123))
                      (S754_finite false 8388608 (-123))))
    with (S754_zero false) by (vm_compute; reflexivity).
  match goal with
  | |- context [FP.dmul (S754_zero false) ?t] =>
      destruct (dmul_zero_l false t) as [[sz ->] | ->]
  end.
  - left. apply dadd_zero_pos_zero.
  - right. reflexivity.
Qed.


(** ** The claims on the program *)

(** C1: the program does not compute the four steps on the configured
    mass and width.  With mass 2^70 and width 1, its binary32 square
    mass * mass is an infinity where the square of the configured [double]
    is 2^140, and [s] is an infinity or NaN at every sample; with
    mass = width = 2^-100 its binary32 product mass * width is zero where
    the product of the configured [double]s is 2^-200, and [s] is zero or
    NaN at every sample.  This holds whatever libm returns. *)
Theorem fp_work_departs_from_four_steps :
  (FP.fmul (mass heavy_generator) (mass heavy_generator) = S754_infinity false /\
   FP.dmul two_pow_70 two_pow_70 = S754_finite false 4503599627370496 88) /\
  (FP.fmul (mass faint_generator) (width faint_generator) = S754_zero false /\
   FP.dmul two_pow_minus_100 two_pow_minus_100
     = S754_finite false 4503599627370496 (-252)) /\
  (forall (lm : FP.Libm) (pool : FP.Pool),
      (FP.s (FP.work lm heavy_generator pool) = S754_infinity false \/
       FP.s (FP.work lm heavy_generator pool) = S754_nan) /\
      (FP.s (FP.work lm faint_generator pool) = S754_zero false \/
       FP.s (FP.work lm faint_generator pool) = S754_nan)).
Proof.
  split; [split; vm_compute; reflexivity |].
  split; [split; vm_compute; reflexivity |].
  intros lm pool. split; [apply heavy_s | apply faint_s].
Qed.

(** C3: with stored mass 2^70 > 0 and width 1 > 0 the [s] written by the
    program is not finite, at every sample and whatever libm returns,
    although the same square formed in binary64, as the Jacobian line
    forms its product, is finite. *)
Theorem fp_s_not_finite :
  (0 < IEEE.F2R (mass heavy_generator) /\ 0 < IEEE.F2R (width heavy_generator)) /\
  (forall (lm : FP.Libm) (pool : FP.Pool),
      FP.is_finite (FP.s (FP.work lm heavy_generator pool)) = false) /\
  FP.is_finite (FP.dmul (FP.float_to_double (mass heavy_generator))
                        (FP.float_to_double (mass heavy_generator))) = true.
Proof.
  split; [apply configurations_positive |].
  split; [| vm_compute; reflexivity].
  intros lm pool. destruct (heavy_s lm pool) as [-> | ->]; reflexivity.
Qed.

(** C4: with stored mass = width = 2^-100 > 0 the [s] written by the
    program is never smaller at one sample than at another: it is zero, or
    NaN, at every sample, whatever libm returns. *)
Theorem fp_s_not_increasing :
  (0 < IEEE.F2R (mass faint_generator) /\ 0 < IEEE.F2R (width faint_generator)) /\
  (forall (lm : FP.Libm) (p1 p2 : FP.Pool),
      SFltb (FP.s (FP.work lm faint_generator p1))
            (FP.s (FP.work lm faint_generator p2)) = false).
Proof.
  split; [apply configurations_positive |].
  intros lm p1 p2.
  destruct (faint_s lm p1) as [-> | ->], (faint_s lm p2) as [-> | ->];
    reflexivity.
Qed.




(** ** Where the binary32 products leave the range *)

Lemma digits2_pos_lower (m : positive) (j : Z) :
  (2 ^ (j - 1) <= Zpos m)%Z -> (1 <= j)%Z -> (j <= Zpos (digits2_pos m))%Z.
Proof.
  intros Hlo Hj. pose proof (digits2_pos_bounds m) as [_ Hhi].
  destruct (Z_le_gt_dec j (Zpos (digits2_pos m))) as [H | H]; [exact H |].
  pose proof (Z.pow_le_mono_r 2 (Zpos (digits2_pos m)) (j - 1)
                ltac:(lia) ltac:(lia)). lia.
Qed.

(** Shifting out fewer bits than the mantissa has keeps its leading bit. *)
Lemma shr_1_keeps_top (m : positive) (k : nat) :
  (Z.of_nat k < Zpos (digits2_pos m))%Z ->
  (2 ^ (Zpos (digits2_pos m) - 1 - Z.of_nat k)
   <= shr_m (Nat.iter k shr_1 (Build_shr_record (Zpos m) false false)))%Z.
Proof.
  intros Hk.
  destruct (shr_inv_iter (Zpos m) k ltac:(lia)) as (t & Heq & Ht & _ & Hq).
  pose proof (digits2_pos_bounds m) as [Hlo _].
  replace (Zpos (digits2_pos m) - 1)%Z
    with ((Zpos (digits2_pos m) - 1 - Z.of_nat k) + Z.of_nat k)%Z in Hlo by lia.
  rewrite Z.pow_add_r in Hlo by lia.
  pose proof (Z.pow_pos_nonneg 2 (Z.of_nat k) ltac:(lia) ltac:(lia)) as HP.
  pose proof (Z.pow_pos_nonneg 2 (Zpos (digits2_pos m) - 1 - Z.of_nat k)
                ltac:(lia) ltac:(lia)) as HQ.
  set (q := shr_m (Nat.iter k shr_1 (Build_shr_record (Zpos m) false false))) in *.
  set (r := shr_r (Nat.iter k shr_1 (Build_shr_record (Zpos m) false false))) in *.
  set (P := (2 ^ Z.of_nat k)%Z) in *.
  set (Q := (2 ^ (Zpos (digits2_pos m) - 1 - Z.of_nat k))%Z) in *.
  clearbody q r P Q.
  destruct (Z_le_gt_dec Q q) as [H | H]; [exact H | exfalso].
  assert (Hprod : ((q + 1) * P <= Q * P)%Z)
    by (apply Z.mul_le_mono_nonneg_r; lia).
  destruct r; cbn [Z.b2z] in Heq; lia.
Qed.

(** The first step of a rounding that is not in the subnormal range keeps
    a positive mantissa, and the sum of its number of bits and of the
    exponent does not decrease. *)
Lemma shr_fexp_keeps_top (prec emax : Z) (m : positive) (e : Z) :
  (0 < prec)%Z ->
  fexp prec emax (Zpos (digits2_pos m) + e)
    = (Zpos (digits2_pos m) + e - prec)%Z ->
  exists (q : positive) (r s : bool) (e' : Z),
    shr_fexp prec emax (Zpos m) e loc_Exact
      = (Build_shr_record (Zpos q) r s, e') /\
    (Zpos (digits2_pos m) + e <= Zpos (digits2_pos q) + e')%Z /\
    (Zpos (digits2_pos m) + e - prec <= e')%Z /\ (e <= e')%Z.
Proof.
  intros Hprec Hfexp. unfold shr_fexp.
  cbn [Zdigits2 shr_record_of_loc]. rewrite Hfexp.
  destruct (Zpos (digits2_pos m) + e - prec - e)%Z as [| p | p] eqn:Hn;
    cbn [shr].
  - exists m, false, false, e. repeat split; lia.
  - rewrite iter_pos_nat.
    pose proof (shr_1_keeps_top m (Pos.to_nat p) ltac:(lia)) as Htop.
    pose proof (Z.pow_pos_nonneg 2
                  (Zpos (digits2_pos m) - 1 - Z.of_nat (Pos.to_nat p))
                  ltac:(lia) ltac:(lia)) as Hpos.
    destruct (Nat.iter (Pos.to_nat p) shr_1
                (Build_shr_record (Zpos m) false false)) as [q r s].
    cbn [shr_m] in Htop. destruct q as [| q | q]; try lia.
    exists q, r, s, (e + Zpos p)%Z. split; [reflexivity |].
    pose proof (digits2_pos_lower q
                  (Zpos (digits2_pos m) - Z.of_nat (Pos.to_nat p))) as Hd.
    replace (Zpos (digits2_pos m) - Z.of_nat (Pos.to_nat p) - 1)%Z
      with (Zpos (digits2_pos m) - 1 - Z.of_nat (Pos.to_nat p))%Z in Hd by lia.
    specialize (Hd Htop ltac:(lia)). repeat split; lia.
  - exists m, false, false, e. repeat split; lia.
Qed.

(** A rounding whose target exponent exceeds the largest one overflows. *)
Lemma binary_round_aux_overflow (prec emax : Z) (sx : bool) (m : positive) (e : Z) :
  (0 < prec)%Z -> (2 <= emax)%Z ->
  (emax < Zpos (digits2_pos m) + e)%Z ->
  binary_round_aux prec emax sx (Zpos m) e loc_Exact = S754_infinity sx.
Proof.
  intros Hprec Hemax Hbig.
  assert (Hfexp : forall d : Z,
             (emax < d)%Z -> fexp prec emax d = (d - prec)%Z)
    by (intros d H; unfold fexp, emin; lia).
  unfold binary_round_aux.
  destruct (shr_fexp_keeps_top prec emax m e Hprec)
    as (q & r & s & e' & -> & Hsum & He' & _).
  { rewrite Hfexp by lia. lia. }
  cbn [shr_m].
  set (l := loc_of_shr_record (Build_shr_record (Zpos q) r s)).
  assert (Hm1 : (Zpos q <= round_nearest_even (Zpos q) l)%Z).
  { destruct l as [| []]; cbn [round_nearest_even];
      try destruct (Z.even (Zpos q)); lia. }
  destruct (round_nearest_even (Zpos q) l) as [| m1 | m1]; try lia.
  assert (Hd1 : (Zpos (digits2_pos q) <= Zpos (digits2_pos m1))%Z).
  { apply digits2_pos_lower; [| lia].
    pose proof (digits2_pos_bounds q) as [Hlo _]. lia. }
  destruct (shr_fexp_keeps_top prec emax m1 e' Hprec)
    as (q2 & r2 & s2 & e'' & -> & _ & _ & He'').
  { rewrite Hfexp by lia. lia. }
  cbn [shr_m].
  replace (e'' <=? emax - prec)%Z with false
    by (symmetry; apply Z.leb_gt; lia).
  reflexivity.
Qed.

Lemma F2R_square_bits (sx : bool) (m : positive) (e : Z) :
  powerRZ 2 64 <= Rabs (IEEE.F2R (S754_finite sx m e)) ->
  (128 < Zpos (digits2_pos (m * m)) + (e + e))%Z.
Proof.
  rewrite Rabs_F2R_finite. intros Hbig.
  apply powerRZ_2_lt_inv.
  pose proof (IZR_pos_lt_pow (m * m)) as Hlt.
  rewrite Pos2Z.inj_mul, mult_IZR in Hlt.
  pose proof (powerRZ_lt 2 e ltac:(lra)) as HE.
  assert (Hm : 0 < IZR (Zpos m)) by (apply IZR_lt; lia).
  rewrite !powerRZ_add by lra.
  replace 128%Z with (64 + 64)%Z by lia. rewrite powerRZ_add by lra.
  pose proof (powerRZ_lt 2 64 ltac:(lra)) as H64.
  set (E := powerRZ 2 e) in *. set (M := IZR (Zpos m)) in *.
  set (D := powerRZ 2 (Zpos (digits2_pos (m * m)))) in *.
  set (B := powerRZ 2 64) in *. clearbody E M D B.
  assert (Hsq : B * B <= (M * E) * (M * E)) by nra.
  assert (HE2 : 0 < E * E) by nra.
  assert (Hstep : M * M * (E * E) < D * (E * E))
    by (apply Rmult_lt_compat_r; assumption).
  nra.
Qed.

(** X15: a stored finite mass of magnitude 2^64 (about 1.8e19) or more
    makes the binary32 square mass * mass overflow, so that the program
    writes an infinite or NaN [s], for every width, every sample and
    whatever libm returns. *)
Theorem fp_large_mass_gives_non_finite_s :
  forall (lm : FP.Libm) (pool : FP.Pool) (sx : bool) (m : positive) (e : Z)
         (w : IEEE.float32),
    powerRZ 2 64 <= Rabs (IEEE.F2R (S754_finite sx m e)) ->
    FP.fmul (S754_finite sx m e) (S754_finite sx m e) = S754_infinity false /\
    (FP.s (FP.work lm (mkBreitWignerGenerator (S754_finite sx m e) w) pool)
       = S754_infinity false \/
     FP.s (FP.work lm (mkBreitWignerGenerator (S754_finite sx m e) w) pool)
       = S754_nan).
Proof.
  intros lm pool sx m e w Hbig.
  pose proof (F2R_square_bits sx m e Hbig) as Hbits.
  assert (Hsq : FP.fmul (S754_finite sx m e) (S754_finite sx m e)
                = S754_infinity false).
  { unfold FP.fmul. cbn [SFmul]. rewrite xorb_nilpotent.
    apply binary_round_aux_overflow;
      unfold IEEE.prec32, IEEE.emax32; lia. }
  split; [exact Hsq |].
  unfold FP.work. cbn [FP.s mass width]. rewrite Hsq.
  cbn [FP.float_to_double]. apply dadd_pos_infinity.
Qed.

Lemma binary_round_aux_underflow (sx : bool) (m : positive) (e : Z) :
  (Zpos (digits2_pos m) + e <= -150)%Z ->
  binary_round_aux IEEE.prec32 IEEE.emax32 sx (Zpos m) e loc_Exact
  = S754_zero sx.
Proof.
  intros Hsmall.
  pose proof (Pos2Z.is_pos (digits2_pos m)) as Hdpos.
  assert (Hfexp : fexp IEEE.prec32 IEEE.emax32 (Zpos (digits2_pos m) + e)
                  = (-149)%Z)
    by (unfold fexp, emin, IEEE.prec32, IEEE.emax32; lia).
  unfold binary_round_aux.
  assert (Hshr : shr_fexp IEEE.prec32 IEEE.emax32 (Zpos m) e loc_Exact
                 = (Build_shr_record 0 false true, (-149)%Z)).
  { unfold shr_fexp. cbn [Zdigits2 shr_record_of_loc]. rewrite Hfexp.
    replace (-149 - e)%Z with (Z.of_nat (Z.to_nat (-149 - e))) by lia.
    rewrite shr_nat, shr_1_exhausts by lia. f_equal. lia. }
  rewrite Hshr. cbn [shr_m loc_of_shr_record round_nearest_even].
  reflexivity.
Qed.

Lemma Rabs_F2R_product (s1 s2 s3 : bool) (m1 m2 : positive) (e1 e2 : Z) :
  Rabs (IEEE.F2R (S754_finite s3 (m1 * m2) (e1 + e2)))
  = Rabs (IEEE.F2R (S754_finite s1 m1 e1) * IEEE.F2R (S754_finite s2 m2 e2)).
Proof.
  rewrite Rabs_mult, !Rabs_F2R_finite, Pos2Z.inj_mul, mult_IZR.
  rewrite powerRZ_add by lra. ring.
Qed.

(** X16: when the stored mass and width are so small that mass * width and
    mass * mass are both below 2^-150 in magnitude, the two binary32
    products underflow to zero and the program writes s = +0, or NaN, at
    every sample, whatever libm returns. *)
Theorem fp_small_parameters_collapse_s :
  forall (lm : FP.Libm) (pool : FP.Pool)
         (sm sw : bool) (mm mw : positive) (em ew : Z),
    Rabs (IEEE.F2R (S754_finite sm mm em) * IEEE.F2R (S754_finite sw mw ew))
      < powerRZ 2 (-150) ->
    Rabs (IEEE.F2R (S754_finite sm mm em) * IEEE.F2R (S754_finite sm mm em))
      < powerRZ 2 (-150) ->
    FP.s (FP.work lm (mkBreitWignerGenerator (S754_finite sm mm em)
                        (S754_finite sw mw ew)) pool)
      = S754_zero false \/
    FP.s (FP.work lm (mkBreitWignerGenerator (S754_finite sm mm em)
                        (S754_finite sw mw ew)) pool)
      = S754_nan.
Proof.
  intros lm pool sm sw mm mw em ew Hmw Hmm.
  rewrite <- (Rabs_F2R_product sm sw (xorb sm sw)) in Hmw.
  rewrite <- (Rabs_F2R_product sm sm (xorb sm sm)) in Hmm.
  apply below_binary32_range in Hmw, Hmm.
  assert (Hp : FP.fmul (S754_finite sm mm em) (S754_finite sw mw ew)
               = S754_zero (xorb sm sw)).
  { unfold FP.fmul. cbn [SFmul]. now apply binary_round_aux_underflow. }
  assert (Hq : FP.fmul (S754_finite sm mm em) (S754_finite sm mm em)
               = S754_zero false).
  { unfold FP.fmul. cbn [SFmul]. rewrite xorb_nilpotent.
    now apply binary_round_aux_underflow. }
  unfold FP.work. cbn [FP.s mass width]. rewrite Hp, Hq.
  cbn [FP.float_to_double].
  match goal with
  | |- context [FP.dmul (S754_zero ?sz) ?t] =>
      destruct (dmul_zero_l sz t) as [[sz' ->] | ->]
  end.
  - left. apply dadd_zero_pos_zero.
  - right. reflexivity.
Qed.

(** ** The general statements at a stand-in libm *)

Lemma fp_large_mass_gives_non_finite_s_witness :
  FP.fmul (S754_finite false 8388608 47) (S754_finite false 8388608 47)
    = S754_infinity false /\
  (FP.s (FP.work stand_in_libm
           (mkBreitWignerGenerator (S754_finite false 8388608 47)
                                   (S754_finite false 8388608 (-23)))
           (FP.mkPool (S754_zero false) (S754_zero false) (S754_zero false)))
     = S754_infinity false \/
   FP.s (FP.work stand_in_libm
           (mkBreitWignerGenerator (S754_finite false 8388608 47)
                                   (S754_finite false 8388608 (-23)))
           (FP.mkPool (S754_zero false) (S754_zero false) (S754_zero false)))
     = S754_nan).
Proof.
  apply (fp_large_mass_gives_non_finite_s stand_in_libm
           (FP.mkPool (S754_zero false) (S754_zero false) (S754_zero false))
           false 8388608 47).
  rewrite Rabs_F2R_finite, <- (IZR_pow2 64), <- (IZR_pow2 47), <- mult_IZR.
  apply IZR_le. vm_compute. discriminate.
Defined.

Lemma two_pow_minus_200_small :
  Rabs (IEEE.F2R (S754_finite false 8388608 (-123))
        * IEEE.F2R (S754_finite false 8388608 (-123)))
  < powerRZ 2 (-150).
Proof.
  rewrite <- (Rabs_F2R_product false false false), Rabs_F2R_finite.
  change (-123 + -123)%Z with (-246)%Z. rewrite !powerRZ_2_neg.
  replace (Z.pow_pos 2 246) with 113078212145816597093331040047546785012958969400039613319782796882727665664%Z by (vm_compute; reflexivity).
  replace (Z.pow_pos 2 150) with 1427247692705959881058285969449495136382746624%Z by (vm_compute; reflexivity).
  replace (Zpos (8388608 * 8388608)) with 70368744177664%Z by (vm_compute; reflexivity).
  lra.
Qed.

Lemma fp_small_parameters_collapse_s_witness :
  FP.s (FP.work stand_in_libm
          (mkBreitWignerGenerator (S754_finite false 8388608 (-123))
                                  (S754_finite false 8388608 (-123)))
          (FP.mkPool (S754_zero false) (S754_zero false) (S754_zero false)))
    = S754_zero false \/
  FP.s (FP.work stand_in_libm
          (mkBreitWignerGenerator (S754_finite false 8388608 (-123))
                                  (S754_finite false 8388608 (-123)))
          (FP.mkPool (S754_zero false) (S754_zero false) (S754_zero false)))
    = S754_nan.
Proof.
  apply (fp_small_parameters_collapse_s stand_in_libm
           (FP.mkPool (S754_zero false) (S754_zero false) (S754_zero false))
           false false 8388608 8388608 (-123) (-123));
    exact two_pow_minus_200_small.
Defined.
